(** * eth2sim caches: a shallow embedding of [cache.py]

    The two classes of [cache.py], [AttestationCache] and [BlockCache], are
    embedded as records over stdpp finite maps and sets; every method is a
    function on these records.  Methods that mutate the object return the new
    object, methods that can raise return the object together with a
    [result].  The recursion of [__chain_for_block] is bounded by the
    interpreter's recursion limit, which is the [depth] argument here; a
    walk that needs more frames ends with [RecursionError]. *)

From stdpp Require Import gmap list sorting.

Open Scope N_scope.

(** ** Data of the beacon chain the caches handle *)

Abbreviation Slot := N (only parsing).
Abbreviation CommitteeIndex := N (only parsing).
Abbreviation Root := N (only parsing).

Record AttestationData := {
  data_slot : Slot;
  data_index : CommitteeIndex;
  beacon_block_root : Root
}.

Record Attestation := {
  aggregation_bits : list bool;
  data : AttestationData;
  att_signature : N
}.

Record BeaconBlock := {
  slot : Slot;
  parent_root : Root;
  state_root : Root
}.

Record SignedBeaconBlock := {
  message : BeaconBlock;
  signature : N
}.

(** [spec.Store]: only the [blocks] mapping is consulted by the caches. *)
Record Store := {
  store_blocks : gmap Root BeaconBlock
}.

#[global] Instance AttestationData_eq_dec : EqDecision AttestationData.
Proof. solve_decision. Defined.
#[global] Instance Attestation_eq_dec : EqDecision Attestation.
Proof. solve_decision. Defined.
#[global] Instance BeaconBlock_eq_dec : EqDecision BeaconBlock.
Proof. solve_decision. Defined.
#[global] Instance SignedBeaconBlock_eq_dec : EqDecision SignedBeaconBlock.
Proof. solve_decision. Defined.

(** ** Exceptions *)

Inductive key_error_arg :=
| MissingKey (key : Root)
    (* a dictionary subscript on an absent key *)
| ParentNotKnown (parent root : Root).
    (* "Parent block {parent} of block {root} not known" *)

Inductive exn :=
| ValueError          (* 'Second block at same height!' *)
| KeyError (arg : key_error_arg)
| IndexError          (* list assignment index out of range *)
| RecursionError.     (* maximum recursion depth exceeded *)

Inductive result (A : Type) :=
| Ok (a : A)
| Raise (e : exn).
Arguments Ok {A} a.
Arguments Raise {A} e.

(** ** helpers.py *)

(** Modelled from the spec: [helpers.popcnt] is not among the sources; the
    spec calls it the bit population count of the aggregation bits. *)
Definition popcnt (bits : list bool) : nat :=
  length (filter (λ b : bool, b = true) bits).

Fixpoint indices_from (i : N) (bits : list bool) : list N :=
  match bits with
  | [] => []
  | b :: bits' =>
      if b then i :: indices_from (N.succ i) bits'
      else indices_from (N.succ i) bits'
  end.

(** Modelled from the spec: [helpers.indices_inside_committee] is not among
    the sources; the spec calls its result the participant positions, the
    indices inside the committee's aggregation bits: the positions, counted
    from 0, of the bits that are set. *)
Definition indices_inside_committee (bits : list bool) : list N :=
  indices_from 0 bits.

(** ** AttestationCache *)

Record AttestationCache := {
  attestation_cache : gmap Slot (gmap CommitteeIndex (list Attestation));
  seen_in_block : gmap Slot (gmap CommitteeIndex (gset N))
}.

(** [__init__] *)
Definition AttestationCache_init : AttestationCache :=
  {| attestation_cache := ∅; seen_in_block := ∅ |}.

(** [add_attestation] *)
Definition add_attestation (self : AttestationCache) (attestation : Attestation)
    (from_block : bool) : AttestationCache :=
  let slot := data_slot (data attestation) in
  let committee := data_index (data attestation) in
  let by_committee := default ∅ (attestation_cache self !! slot) in
  let attestations := default [] (by_committee !! committee) in
  let cache' :=
    <[slot := <[committee := attestations ++ [attestation]]> by_committee]>
      (attestation_cache self) in
  if from_block then
    let indices := indices_inside_committee (aggregation_bits attestation) in
    let seen_by_committee := default ∅ (seen_in_block self !! slot) in
    let seen := default ∅ (seen_by_committee !! committee) in
    {| attestation_cache := cache';
       seen_in_block :=
         <[slot := <[committee := foldl (λ s index, {[index]} ∪ s) seen indices]>
                     seen_by_committee]> (seen_in_block self) |}
  else
    {| attestation_cache := cache'; seen_in_block := seen_in_block self |}.

(** The two conditional expressions that open
    [attestations_with_unseen_validators]. *)
Definition cached_attestations (self : AttestationCache) (slot : Slot)
    (committee : CommitteeIndex) : list Attestation :=
  match attestation_cache self !! slot with
  | Some by_committee =>
      match by_committee !! committee with
      | Some attestations => attestations
      | None => []
      end
  | None => []
  end.

Definition seen_indices_of (self : AttestationCache) (slot : Slot)
    (committee : CommitteeIndex) : gset N :=
  match seen_in_block self !! slot with
  | Some by_committee =>
      match by_committee !! committee with
      | Some seen => seen
      | None => ∅
      end
  | None => ∅
  end.

(** The inner [for index in indices_in_attestation] loop: the state is the
    pair of [include] and [seen_indices]. *)
Definition scan_index (st : bool * gset N) (index : N) : bool * gset N :=
  if decide (index ∈ st.2) then st else (true, {[index]} ∪ st.2).

Definition scan_indices (indices : list N) (seen_indices : gset N)
    : bool * gset N :=
  foldl scan_index (false, seen_indices) indices.

(** The outer [for attestation in attestations] loop; the generator's yields
    are collected in order. *)
Fixpoint unseen_loop (attestations : list Attestation) (seen_indices : gset N)
    : list Attestation :=
  match attestations with
  | [] => []
  | attestation :: rest =>
      let st := scan_indices
                  (indices_inside_committee (aggregation_bits attestation))
                  seen_indices in
      if st.1 then attestation :: unseen_loop rest st.2
      else unseen_loop rest st.2
  end.

Definition attestations_with_unseen_validators (self : AttestationCache)
    (slot : Slot) (committee : CommitteeIndex) : list Attestation :=
  unseen_loop (cached_attestations self slot committee)
              (seen_indices_of self slot committee).

(** What the spec says of the same method: scan in insertion order; an
    attestation is yielded when one of its positions is absent from [seen],
    and then all its positions are added to [seen]. *)
Fixpoint unseen_spec (attestations : list Attestation) (seen : gset N)
    : list Attestation :=
  match attestations with
  | [] => []
  | attestation :: rest =>
      let positions := indices_inside_committee (aggregation_bits attestation) in
      if decide (Exists (λ p, p ∉ seen) positions)
      then attestation :: unseen_spec rest (seen ∪ list_to_set positions)
      else unseen_spec rest seen
  end.

(** [clean_old_slots]: the loop over [tuple(d.keys())] that deletes the old
    slots of one dictionary. *)
Definition delete_old {V} (lower_bound : N) (d : gmap Slot V) (slots : list Slot)
    : gmap Slot V :=
  foldl (λ d cache_slot,
           if cache_slot <? lower_bound then delete cache_slot d else d)
        d slots.

Definition keys {V} (d : gmap Slot V) : list Slot := (map_to_list d).*1.

Definition clean_old_slots (self : AttestationCache) (slot : Slot)
    (keep_slots : N) : AttestationCache :=
  if keep_slots <? slot then
    let lower_bound := slot - keep_slots in
    {| attestation_cache :=
         delete_old lower_bound (attestation_cache self)
                    (keys (attestation_cache self));
       seen_in_block :=
         delete_old lower_bound (seen_in_block self)
                    (keys (seen_in_block self)) |}
  else self.

(** [attestations.sort(key=popcnt, reverse=True)]: a stable sort, larger
    population counts first, equal counts in their original order. *)
Fixpoint insert_by_popcnt (a : Attestation) (sorted : list Attestation)
    : list Attestation :=
  match sorted with
  | [] => [a]
  | b :: sorted' =>
      if (popcnt (aggregation_bits a) <? popcnt (aggregation_bits b))%nat
      then b :: insert_by_popcnt a sorted'
      else a :: b :: sorted'
  end.

Definition sort_by_popcnt (attestations : list Attestation) : list Attestation :=
  foldr insert_by_popcnt [] attestations.

(** The [keep_indexes] list rebuilt for every candidate. *)
Definition keep_indexes (keep : list Attestation) : list N :=
  keep ≫= λ keep_attestation,
    indices_inside_committee (aggregation_bits keep_attestation).

(** Truth value of an index, as [any] tests it. *)
Definition truthy (index : N) : bool := negb (index =? 0).

(** [any(index for index in current_attestation_indexes
          if index not in keep_indexes)]: the generator yields the indices
    themselves, and [any] looks for a true one among them. *)
Definition keep_current_attestation (keep : list Attestation)
    (attestation : Attestation) : bool :=
  existsb truthy
    (filter (λ index, index ∉ keep_indexes keep)
            (indices_inside_committee (aggregation_bits attestation))).

(** One turn of [for attestation in attestations], on the list [keep]. *)
Definition keep_step (keep : list Attestation) (attestation : Attestation)
    : list Attestation :=
  if keep_current_attestation keep attestation
  then keep ++ [attestation] else keep.

Definition keep_loop (attestations : list Attestation) : list Attestation :=
  foldl keep_step [] attestations.

Definition clean_committee (attestations : list Attestation) : list Attestation :=
  keep_loop (sort_by_popcnt attestations).

Definition clean_redundant_attestations (self : AttestationCache)
    : AttestationCache :=
  {| attestation_cache :=
       (λ committee_attestation_map : gmap CommitteeIndex (list Attestation),
          clean_committee <$> committee_attestation_map)
       <$> attestation_cache self;
     seen_in_block := seen_in_block self |}.

(** [cleanup] *)
Definition cleanup (self : AttestationCache) (slot : Slot) (keep_slots : N)
    : AttestationCache :=
  clean_redundant_attestations (clean_old_slots self slot keep_slots).

(** The participant positions covered by a list of attestations. *)
Definition positions (attestations : list Attestation) : gset N :=
  list_to_set (keep_indexes attestations).

(** ** BlockCache *)

Record BlockCache := {
  blocks : gmap Root SignedBeaconBlock;
  accepted : list (option Root);
  outstanding : gset Root
}.

(** [while len(self.accepted) <= slot: self.accepted.append(None)]; every
    turn makes the list one longer, so [S slot] turns are never used up. *)
Fixpoint pad_while (turns : nat) (accepted : list (option Root)) (slot : Slot)
    : list (option Root) :=
  match turns with
  | O => accepted
  | S turns' =>
      if N.of_nat (length accepted) <=? slot
      then pad_while turns' (accepted ++ [None]) slot
      else accepted
  end.

Definition pad_accepted (accepted : list (option Root)) (slot : Slot)
    : list (option Root) :=
  pad_while (S (N.to_nat slot)) accepted slot.

Section BlockCacheMethods.

(** [spec.hash_tree_root] belongs to the eth2spec library. *)
Variable hash_tree_root : BeaconBlock → Root.

(** [__init__] *)
Definition BlockCache_init (genesis : BeaconBlock) : BlockCache :=
  let genesis_root := hash_tree_root genesis in
  let signed_genesis := {| message := genesis; signature := 0 |} in
  {| blocks := {[ genesis_root := signed_genesis ]};
     accepted := [Some genesis_root];
     outstanding := ∅ |}.

(** [add_block]: the object after the call, and how the call ended. *)
Definition add_block (self : BlockCache) (block : SignedBeaconBlock)
    (root : option Root) : BlockCache * result unit :=
  let root := default (hash_tree_root (message block)) root in
  let blocks' := <[root := block]> (blocks self) in
  if decide (Some root ∈ accepted self) then
    ({| blocks := blocks'; accepted := accepted self;
        outstanding := outstanding self |}, Ok ())
  else
    let accepted' := pad_accepted (accepted self) (slot (message block)) in
    match accepted' !! N.to_nat (slot (message block)) with
    | None =>
        ({| blocks := blocks'; accepted := accepted';
            outstanding := outstanding self |}, Raise IndexError)
    | Some block_root_current_slot =>
        if decide (block_root_current_slot ≠ None
                   ∧ block_root_current_slot ≠ Some root)
        then ({| blocks := blocks'; accepted := accepted';
                 outstanding := outstanding self |}, Raise ValueError)
        else ({| blocks := blocks'; accepted := accepted';
                 outstanding := {[root]} ∪ outstanding self |}, Ok ())
    end.

(** [__chain_for_block]; [chain] is the list the caller passes in and the
    result is that list after the call.  [depth] is the number of frames
    the interpreter still allows. *)
Fixpoint chain_for_block_rec (depth : nat) (self : BlockCache)
    (block : SignedBeaconBlock) (root : Root)
    (chain : list SignedBeaconBlock) (store : Store)
    : result (list SignedBeaconBlock) :=
  match depth with
  | O => Raise RecursionError
  | S depth' =>
      if decide (root ∈ dom (store_blocks store)) then Ok chain
      else if slot (message block) =? 0 then Ok chain
      else
        match blocks self !! parent_root (message block) with
        | None =>
            Raise (KeyError (ParentNotKnown (parent_root (message block)) root))
        | Some parent =>
            match chain_for_block_rec depth' self parent
                    (parent_root (message block)) chain store with
            | Ok chain' => Ok (chain' ++ [block])
            | Raise e => Raise e
            end
        end
  end.

(** [chain_for_block] *)
Definition chain_for_block (depth : nat) (self : BlockCache)
    (block : SignedBeaconBlock) (store : Store)
    : result (list SignedBeaconBlock) :=
  let root := hash_tree_root (message block) in
  chain_for_block_rec depth self block root [] store.

(** One turn of the loop of [accept_block]. *)
Definition accept_one (self : BlockCache) (block : SignedBeaconBlock)
    : BlockCache * result unit :=
  let root := hash_tree_root (message block) in
  let i := N.to_nat (slot (message block)) in
  if decide (i < length (accepted self))%nat then
    ({| blocks := blocks self;
        accepted := <[i := Some root]> (accepted self);
        outstanding := outstanding self ∖ {[root]} |}, Ok ())
  else (self, Raise IndexError).

(** [accept_block], its variadic arguments as a list *)
Fixpoint accept_block (self : BlockCache) (kargs : list SignedBeaconBlock)
    : BlockCache * result unit :=
  match kargs with
  | [] => (self, Ok ())
  | block :: rest =>
      match accept_one self block with
      | (self', Ok _) => accept_block self' rest
      | (self', Raise e) => (self', Raise e)
      end
  end.

(** The loop of [longest_outstanding_chain] over the roots of
    [self.outstanding] in the order the set hands them out.  The subscript
    [self.blocks[oblock]] is evaluated by the generator, outside the
    [try]. *)
Fixpoint longest_loop (depth : nat) (self : BlockCache) (store : Store)
    (roots : list Root) (chain : list SignedBeaconBlock)
    : result (list SignedBeaconBlock) :=
  match roots with
  | [] => Ok chain
  | oblock :: rest =>
      match blocks self !! oblock with
      | None => Raise (KeyError (MissingKey oblock))
      | Some outstanding =>
          match chain_for_block depth self outstanding store with
          | Ok ochain =>
              longest_loop depth self store rest
                (if (length chain <=? length ochain)%nat then ochain else chain)
          | Raise (KeyError _) =>
              longest_loop depth self store rest
                (if (length chain <=? 0)%nat then [] else chain)
          | Raise e => Raise e
          end
      end
  end.

(** [longest_outstanding_chain] *)
Definition longest_outstanding_chain (depth : nat) (self : BlockCache)
    (store : Store) : result (list SignedBeaconBlock) :=
  longest_loop depth self store (elements (outstanding self)) [].

(** The chain an outstanding block contributes to
    [longest_outstanding_chain]. *)
Definition ochain_of (depth : nat) (self : BlockCache)
    (outstanding : SignedBeaconBlock) (store : Store)
    : list SignedBeaconBlock :=
  match chain_for_block depth self outstanding store with
  | Ok ochain => ochain
  | Raise _ => []
  end.

(** States a driver can bring a cache to: any calls of [add_block] and
    [accept_block] after construction, whether they return or raise. *)
Inductive reachable (genesis : BeaconBlock) : BlockCache → Prop :=
| reachable_init : reachable genesis (BlockCache_init genesis)
| reachable_add_block self block root :
    reachable genesis self →
    reachable genesis (add_block self block root).1
| reachable_accept_block self kargs :
    reachable genesis self →
    reachable genesis (accept_block self kargs).1.

(** The same, when [accept_block] is only called with blocks whose root
    is a key of [blocks], as it is after [add_block(block)]. *)
Inductive reachable_known (genesis : BeaconBlock) : BlockCache → Prop :=
| reachable_known_init : reachable_known genesis (BlockCache_init genesis)
| reachable_known_add_block self block root :
    reachable_known genesis self →
    reachable_known genesis (add_block self block root).1
| reachable_known_accept_block self kargs :
    reachable_known genesis self →
    Forall (λ block, hash_tree_root (message block) ∈ dom (blocks self)) kargs →
    reachable_known genesis (accept_block self kargs).1.

(** The invariant of the spec's data model. *)
Definition accepted_in_blocks (self : BlockCache) : Prop :=
  ∀ root, Some root ∈ accepted self → root ∈ dom (blocks self).

(** The walk of [__chain_for_block]: from a block and the root it is
    visited under to the cached parent it recurses into. *)
Inductive walk_step (self : BlockCache) (store : Store)
    : SignedBeaconBlock * Root → SignedBeaconBlock * Root → Prop :=
| walk_step_parent block root parent :
    root ∉ dom (store_blocks store) →
    slot (message block) ≠ 0 →
    blocks self !! parent_root (message block) = Some parent →
    walk_step self store (block, root) (parent, parent_root (message block)).

Definition walk_reaches (self : BlockCache) (store : Store)
    : SignedBeaconBlock * Root → SignedBeaconBlock * Root → Prop :=
  rtc (walk_step self store).

(** The returning runs of [__chain_for_block] on an empty [chain]: the
    block, the root it is visited under and the list it leaves. *)
Inductive ancestors (self : BlockCache) (store : Store)
    : SignedBeaconBlock → Root → list SignedBeaconBlock → Prop :=
| ancestors_known block root :
    root ∈ dom (store_blocks store) →
    ancestors self store block root []
| ancestors_slot_0 block root :
    root ∉ dom (store_blocks store) →
    slot (message block) = 0 →
    ancestors self store block root []
| ancestors_parent block root parent path :
    root ∉ dom (store_blocks store) →
    slot (message block) ≠ 0 →
    blocks self !! parent_root (message block) = Some parent →
    ancestors self store parent (parent_root (message block)) path →
    ancestors self store block root (path ++ [block]).

(** How the runs [run depth] of a walk end when the walk stops at
    [block'], visited under [root']: they return, the same chain for every
    recursion limit from [depth] on, when [root'] is known to the store or
    [block'] is at slot 0; they raise the missing-ancestor error when the
    parent of [block'] is not cached. *)
Definition ends_at (self : BlockCache) (store : Store) (depth : nat)
    (run : nat → result (list SignedBeaconBlock))
    (block' : SignedBeaconBlock) (root' : Root) : Prop :=
  ((root' ∈ dom (store_blocks store) ∨ slot (message block') = 0)
   ∧ ∃ chain, ∀ depth', (depth ≤ depth')%nat → run depth' = Ok chain)
  ∨ ((root' ∉ dom (store_blocks store))
     ∧ slot (message block') ≠ 0
     ∧ blocks self !! parent_root (message block') = None
     ∧ ∀ depth', (depth ≤ depth')%nat →
         run depth'
         = Raise (KeyError (ParentNotKnown (parent_root (message block')) root'))).

End BlockCacheMethods.

(** The slots [cleanup(slot, keep_slots)] drops. *)
Definition dropped (slot keep_slots s : N) : Prop :=
  keep_slots < slot ∧ s < slot - keep_slots.

(** ** Concrete caches used below *)

Definition vote (bits : list bool) : Attestation :=
  {| aggregation_bits := bits;
     data := {| data_slot := 1; data_index := 0; beacon_block_root := 0 |};
     att_signature := 0 |}.

(** One attestation in which only the first committee member took part. *)
Definition first_member_only : AttestationCache :=
  add_attestation AttestationCache_init (vote [true]) false.

(** Three attestations of one committee; the first came in a block. *)
Definition three_votes : AttestationCache :=
  add_attestation
    (add_attestation
       (add_attestation AttestationCache_init (vote [true; false; false]) true)
       (vote [true; true; false]) false)
    (vote [false; true; false]) false.

(** Attestations at slots 4, 5 and 9; the one at slot 4 came in a block. *)
Definition vote_at (slot : Slot) : Attestation :=
  {| aggregation_bits := [false; true];
     data := {| data_slot := slot; data_index := 0; beacon_block_root := 0 |};
     att_signature := 0 |}.

Definition slots_4_5_9 : AttestationCache :=
  add_attestation
    (add_attestation
       (add_attestation AttestationCache_init (vote_at 4) true)
       (vote_at 5) true)
    (vote_at 9) false.

(** A stand-in for [spec.hash_tree_root] on concrete blocks: an injective
    numbering of the block's fields. *)
Definition field_hash (block : BeaconBlock) : Root :=
  Npos (encode (slot block, parent_root block, state_root block)).

Definition signed (slot : Slot) (parent_root state_root : Root)
    : SignedBeaconBlock :=
  {| message := {| slot := slot; parent_root := parent_root;
                   state_root := state_root |};
     signature := 1 |}.

Definition genesis0 : BeaconBlock :=
  {| slot := 0; parent_root := 0; state_root := 0 |}.

(** The external store that knows genesis only. *)
Definition genesis_store : Store :=
  {| store_blocks := {[ field_hash genesis0 := genesis0 ]} |}.

(** Two different blocks at slot 5, both children of genesis. *)
Definition blockA : SignedBeaconBlock := signed 5 (field_hash genesis0) 1.
Definition blockB : SignedBeaconBlock := signed 5 (field_hash genesis0) 2.

(** The chain genesis, [link1], [link2], [link3]. *)
Definition link1 : SignedBeaconBlock := signed 1 (field_hash genesis0) 1.
Definition link2 : SignedBeaconBlock := signed 2 (field_hash (message link1)) 1.
Definition link3 : SignedBeaconBlock := signed 3 (field_hash (message link2)) 1.

Definition chain_cache : BlockCache :=
  (add_block field_hash
     (add_block field_hash
        (add_block field_hash (BlockCache_init field_hash genesis0) link1 None).1
        link2 None).1
     link3 None).1.

(** A block whose parent, root 99, was never added. *)
Definition orphan : SignedBeaconBlock := signed 4 99 1.

(** A block stored under the root it names as its parent. *)
Definition self_parent : SignedBeaconBlock := signed 1 77 1.

Definition cyclic_cache : BlockCache :=
  (add_block field_hash (BlockCache_init field_hash genesis0)
     self_parent (Some 77)).1.

(** [chain_cache] after [orphan] was added too. *)
Definition orphan_cache : BlockCache :=
  (add_block field_hash chain_cache orphan None).1.

(** A block at slot 0 that was never added to the cache. *)
Definition stranger : SignedBeaconBlock := signed 0 0 5.

(** ** The other methods of AttestationCache *)

(** [list.remove(x)]: the list without its first element equal to [x], and
    [None] where Python raises [ValueError] because there is none. *)
Fixpoint list_remove (x : Attestation) (l : list Attestation)
    : option (list Attestation) :=
  match l with
  | [] => None
  | y :: l' =>
      if decide (y = x) then Some l'
      else match list_remove x l' with
           | Some l'' => Some (y :: l'')
           | None => None
           end
  end.

(** [remove_attestation]: the two subscripts raise [KeyError] on an absent
    slot or committee, [list.remove] raises [ValueError]. *)
Definition remove_attestation (self : AttestationCache) (slot : Slot)
    (committee : CommitteeIndex) (attestation : Attestation)
    : AttestationCache * result unit :=
  match attestation_cache self !! slot with
  | None => (self, Raise (KeyError (MissingKey slot)))
  | Some by_committee =>
      match by_committee !! committee with
      | None => (self, Raise (KeyError (MissingKey committee)))
      | Some attestations =>
          match list_remove attestation attestations with
          | None => (self, Raise ValueError)
          | Some attestations' =>
              ({| attestation_cache :=
                    <[slot := <[committee := attestations']> by_committee]>
                      (attestation_cache self);
                  seen_in_block := seen_in_block self |}, Ok ())
          end
      end
  end.

(** [attestations(max_slot)]: the triples the generator yields.  The two
    dictionaries are walked in the order of the finite map, which is not the
    insertion order of a Python dictionary; what is proved of the result
    does not depend on the order. *)
Definition attestations (self : AttestationCache) (max_slot : Slot)
    : list (Slot * CommitteeIndex * Attestation) :=
  map_to_list (attestation_cache self) ≫= λ slot_item,
    if slot_item.1 <=? max_slot then
      map_to_list slot_item.2 ≫= λ committee_item,
        (λ attestation, (slot_item.1, committee_item.1, attestation))
        <$> committee_item.2
    else [].

(** [all_attestations_with_unseen_validators(max_slot)], with the same
    proviso on the order of the slots and committees. *)
Definition all_attestations_with_unseen_validators (self : AttestationCache)
    (max_slot : Slot) : list Attestation :=
  map_to_list (attestation_cache self) ≫= λ slot_item,
    if slot_item.1 <=? max_slot then
      keys slot_item.2 ≫= λ committee,
        attestations_with_unseen_validators self slot_item.1 committee
    else [].

(** Caches a driver fills: calls of [add_attestation] and [clean_old_slots]
    after construction. *)
Inductive filled : AttestationCache → Prop :=
| filled_init : filled AttestationCache_init
| filled_add_attestation self attestation from_block :
    filled self → filled (add_attestation self attestation from_block)
| filled_clean_old_slots self slot keep_slots :
    filled self → filled (clean_old_slots self slot keep_slots).

(** ** Invariants of BlockCache *)

(** No root is both accepted and outstanding. *)
Definition accepted_not_outstanding (self : BlockCache) : Prop :=
  ∀ root, Some root ∈ accepted self → root ∉ outstanding self.

(** ** validator.py *)

Abbreviation BLSPubkey := N (only parsing).

(** An entry of [state.validators]. *)
Record RegistryValidator := {
  validator_pubkey : BLSPubkey;
  effective_balance : N
}.

(** [spec.BeaconState]: only the registry is consulted. *)
Record BeaconState := {
  validators : list RegistryValidator
}.

Record Validator := {
  index : option N;
  counter : Z;
  startbalance : N;
  privkey : Z;
  pubkey : BLSPubkey;
  colorstep : Z
}.

(** [enumerate(state.validators)] filtered by the public key: the indices
    the generator of [index_from_state] yields, in order. *)
Definition matching_indices (self : Validator) (state : BeaconState)
    : list nat :=
  (filter (λ genesis_validator : nat * RegistryValidator,
             validator_pubkey genesis_validator.2 = pubkey self)
          (imap pair (validators state))).*1.

(** The builtin [max] on the yielded indices: [ValueError] on none. *)
Definition max_index (indices : list nat) : result nat :=
  match indices with
  | [] => Raise ValueError
  | i :: rest => Ok (foldl Nat.max i rest)
  end.

(** [index_from_state]; [spec.ValidatorIndex] is a [uint64] and refuses a
    value that does not fit with [ValueError]. *)
Definition index_from_state (self : Validator) (state : BeaconState)
    : Validator * result unit :=
  match max_index (matching_indices self state) with
  | Raise e => (self, Raise e)
  | Ok i =>
      if decide (N.of_nat i < 2 ^ 64) then
        ({| index := Some (N.of_nat i); counter := counter self;
            startbalance := startbalance self; privkey := privkey self;
            pubkey := pubkey self; colorstep := colorstep self |}, Ok ())
      else (self, Raise ValueError)
  end.

Section Colors.

(** The table [COLORS] of [colors.py]. *)
Variable Color : Type.
Variable COLORS : list Color.


End Colors.

(** A registry in which the key 7 occurs twice, and a validator with it. *)
Definition registry_7_twice : BeaconState :=
  {| validators :=
       [ {| validator_pubkey := 7; effective_balance := 32 |};
         {| validator_pubkey := 9; effective_balance := 32 |};
         {| validator_pubkey := 7; effective_balance := 32 |};
         {| validator_pubkey := 5; effective_balance := 32 |} ] |}.

Definition validator_7 : Validator :=
  {| index := None; counter := 4; startbalance := 32; privkey := 11;
     pubkey := 7; colorstep := 2 |}.

(** ** Order of insertion *)

(** The cache after the calls [add_attestation(attestation, from_block)]
    of [calls], made in that order on a new cache. *)
Definition filled_by (calls : list (Attestation * bool)) : AttestationCache :=
  foldl (λ self call, add_attestation self call.1 call.2)
        AttestationCache_init calls.

(** The attestations those calls inserted for a slot and committee, in the
    order of insertion. *)
Definition inserted (calls : list (Attestation * bool)) (slot : Slot)
    (committee : CommitteeIndex) : list Attestation :=
  filter (λ attestation,
            data_slot (data attestation) = slot
            ∧ data_index (data attestation) = committee)
         calls.*1.

(** The positions of those among them that were inserted with [from_block]
    true. *)
Definition inserted_from_block (calls : list (Attestation * bool))
    (slot : Slot) (committee : CommitteeIndex) : gset N :=
  positions (inserted (filter (λ call, call.2 = true) calls) slot committee).

(** Three attestations of slot 1, committee 0, with the positions 5, then
    1 and 5, then 1, 2 and 3; the first came in a block. *)
Definition vote_5 : Attestation :=
  vote [false; false; false; false; false; true].
Definition vote_1_5 : Attestation :=
  vote [false; true; false; false; false; true].
Definition vote_1_2_3 : Attestation :=
  vote [false; true; true; true].

Definition three_calls : list (Attestation * bool) :=
  [(vote_5, true); (vote_1_5, false); (vote_1_2_3, false)].

(** The cache of these calls after a [cleanup] that drops no slot. *)
Definition resorted_votes : AttestationCache :=
  cleanup (filled_by three_calls) 3 5.

(** ** Cycles of parent references *)

(** The walk of [__chain_for_block] from [start] comes back to a block and
    root it has already visited. *)
Definition walk_cycle (self : BlockCache) (store : Store)
    (start : SignedBeaconBlock * Root) : Prop :=
  ∃ x, walk_reaches self store start x ∧ tc (walk_step self store) x x.

(** [chain_cache] after [self_parent] was added under the root it names as
    its parent. *)
Definition mixed_cache : BlockCache :=
  (add_block field_hash chain_cache self_parent (Some 77)).1.

(** * Properties of AttestationCache *)

(** ** [attestations_with_unseen_validators] *)

Lemma scan_indices_fold indices include (seen : gset N) :
  foldl scan_index (include, seen) indices
  = (include || bool_decide (Exists (λ p, p ∉ seen) indices),
     seen ∪ list_to_set indices).
Proof.
  revert include seen.
  induction indices as [|index indices IH]; intros include seen; simpl.
  - rewrite orb_false_r. f_equal. apply set_eq. intros x.
    rewrite elem_of_union, elem_of_empty. tauto.
  - unfold scan_index at 2; simpl.
    destruct (decide (index ∈ seen)) as [Hin|Hin]; rewrite IH; f_equal.
    + f_equal. apply bool_decide_ext. rewrite Exists_cons. tauto.
    + apply set_eq. intros x.
      rewrite !elem_of_union, elem_of_singleton.
      split; [tauto|]. intros [?|[->|?]]; tauto.
    + rewrite (bool_decide_eq_true_2 (Exists _ (index :: indices))) by (by left).
      by rewrite orb_true_r.
    + apply set_eq. intros x. rewrite !elem_of_union. tauto.
Qed.

Lemma unseen_loop_spec attestations seen :
  unseen_loop attestations seen = unseen_spec attestations seen.
Proof.
  revert seen. induction attestations as [|a rest IH]; intros seen; simpl; [done|].
  unfold scan_indices. rewrite scan_indices_fold. simpl.
  case_bool_decide as Hex.
  - rewrite decide_True by done. by rewrite IH.
  - rewrite decide_False by done. rewrite IH. f_equal.
    apply set_eq. intros x. rewrite elem_of_union, elem_of_list_to_set.
    split; [|tauto]. intros [?|Hx]; [done|].
    destruct (decide (x ∈ seen)); [done|]. exfalso. apply Hex.
    apply Exists_exists. eauto.
Qed.

(** The second attestation of [three_votes] brings position 1; the third
    brings nothing after it. *)
Example three_votes_unseen :
  attestations_with_unseen_validators three_votes 1 0
  = [vote [true; true; false]].
Proof. vm_compute. reflexivity. Qed.

(** ** [clean_old_slots] and [cleanup] *)

Lemma delete_old_lookup {V} lower_bound (slots : list Slot) (d : gmap Slot V) s :
  delete_old lower_bound d slots !! s
  = if decide (s < lower_bound ∧ s ∈ slots) then None else d !! s.
Proof.
  unfold delete_old. revert d.
  induction slots as [|cache_slot slots IH]; intros d; simpl.
  - rewrite decide_False; [done|]. intros [_ H]. by apply elem_of_nil in H.
  - rewrite IH. destruct (N.ltb_spec cache_slot lower_bound) as [Hlt|Hge].
    + destruct (decide (s = cache_slot)) as [->|Hne].
      * rewrite lookup_delete_eq.
        rewrite (decide_True (P := _ ∧ cache_slot ∈ cache_slot :: slots));
          [by case_decide|]. split; [done|]. apply list_elem_of_here.
      * rewrite lookup_delete_ne by done.
        apply decide_ext. rewrite elem_of_cons. tauto.
    + apply decide_ext. rewrite elem_of_cons.
      split; [tauto|]. intros [? [->|?]]; [lia|done].
Qed.

Lemma elem_of_keys {V} (d : gmap Slot V) s : s ∈ keys d ↔ is_Some (d !! s).
Proof.
  unfold keys. rewrite list_elem_of_fmap. split.
  - intros [[k v] [-> Hkv]]. apply elem_of_map_to_list in Hkv. by exists v.
  - intros [v Hv]. exists (s, v). split; [done|]. by apply elem_of_map_to_list.
Qed.

Lemma delete_old_keys_lookup {V} lower_bound (d : gmap Slot V) s :
  delete_old lower_bound d (keys d) !! s
  = if decide (s < lower_bound) then None else d !! s.
Proof.
  rewrite delete_old_lookup. destruct (decide (s < lower_bound)) as [Hlt|Hge].
  - case_decide as H; [done|].
    destruct (d !! s) as [v|] eqn:Hd; [|done].
    exfalso. apply H. split; [done|]. apply elem_of_keys. by exists v.
  - rewrite decide_False; [done|]. tauto.
Qed.

Lemma clean_old_slots_attestation_cache self slot keep_slots s :
  attestation_cache (clean_old_slots self slot keep_slots) !! s
  = if decide (dropped slot keep_slots s) then None
    else attestation_cache self !! s.
Proof.
  unfold clean_old_slots, dropped.
  destruct (N.ltb_spec keep_slots slot) as [Hlt|Hge]; simpl.
  - rewrite delete_old_keys_lookup. apply decide_ext. tauto.
  - rewrite decide_False; [done|]. lia.
Qed.

Lemma clean_old_slots_seen_in_block self slot keep_slots s :
  seen_in_block (clean_old_slots self slot keep_slots) !! s
  = if decide (dropped slot keep_slots s) then None
    else seen_in_block self !! s.
Proof.
  unfold clean_old_slots, dropped.
  destruct (N.ltb_spec keep_slots slot) as [Hlt|Hge]; simpl.
  - rewrite delete_old_keys_lookup. apply decide_ext. tauto.
  - rewrite decide_False; [done|]. lia.
Qed.

Lemma cleanup_attestation_cache_dom self slot keep_slots s :
  s ∈ dom (attestation_cache (cleanup self slot keep_slots))
  ↔ s ∈ dom (attestation_cache self) ∧ ¬ dropped slot keep_slots s.
Proof.
  unfold cleanup, clean_redundant_attestations; simpl.
  rewrite dom_fmap, !elem_of_dom, clean_old_slots_attestation_cache.
  case_decide as Hd.
  - split; [intros [? ?]; done | tauto].
  - tauto.
Qed.

Lemma cleanup_seen_in_block self slot keep_slots s :
  seen_in_block (cleanup self slot keep_slots) !! s
  = if decide (dropped slot keep_slots s) then None
    else seen_in_block self !! s.
Proof. apply clean_old_slots_seen_in_block. Qed.

(** In [slots_4_5_9], [cleanup(10, 5)] drops slot 4 and keeps slots 5 and 9
    in both mappings. *)
Example cleanup_10_5_slots :
  let self' := cleanup slots_4_5_9 10 5 in
  dom (attestation_cache self') = {[5; 9]} ∧ dom (seen_in_block self') = {[5]}.
Proof. vm_compute. split; reflexivity. Qed.

(** C7: [cleanup(slot, keep_slots)] removes from [attestation_cache] and
    from [seen_in_block] the entries of the slots below [slot - keep_slots]
    and of no other slot, and removes nothing when [slot <= keep_slots];
    [cleanup(10, 5)] removes the slots below 5 and retains the others, and
    [cleanup(3, 5)] retains every slot. *)
Theorem cleanup_boundary (self : AttestationCache) (slot keep_slots s : N) :
  let self' := cleanup self slot keep_slots in
  (s ∈ dom (attestation_cache self')
     ↔ s ∈ dom (attestation_cache self) ∧ ¬ (keep_slots < slot ∧ s < slot - keep_slots))
  ∧ (s ∈ dom (seen_in_block self')
     ↔ s ∈ dom (seen_in_block self) ∧ ¬ (keep_slots < slot ∧ s < slot - keep_slots))
  ∧ (slot ≤ keep_slots →
       dom (attestation_cache self') = dom (attestation_cache self)
       ∧ seen_in_block self' = seen_in_block self)
  ∧ (slot = 10 → keep_slots = 5 →
       (s ∈ dom (attestation_cache self') ↔ s ∈ dom (attestation_cache self) ∧ 5 ≤ s)
       ∧ (s ∈ dom (seen_in_block self') ↔ s ∈ dom (seen_in_block self) ∧ 5 ≤ s))
  ∧ (slot = 3 → keep_slots = 5 →
       dom (attestation_cache self') = dom (attestation_cache self)
       ∧ seen_in_block self' = seen_in_block self).
Proof.
  intros self'.
  assert (Hseen : s ∈ dom (seen_in_block self')
            ↔ s ∈ dom (seen_in_block self) ∧ ¬ dropped slot keep_slots s).
  { subst self'. rewrite !elem_of_dom, cleanup_seen_in_block.
    case_decide; [|tauto]. split; [intros [? ?]; done | tauto]. }
  assert (Hnoop : slot ≤ keep_slots →
            dom (attestation_cache self') = dom (attestation_cache self)
            ∧ seen_in_block self' = seen_in_block self).
  { intros Hle. subst self'. split.
    - apply set_eq. intros k. rewrite cleanup_attestation_cache_dom.
      unfold dropped. split; [tauto|]. intros ?. split; [done|]. lia.
    - apply map_eq. intros k. rewrite cleanup_seen_in_block.
      rewrite decide_False; [done|]. unfold dropped. lia. }
  split; [apply cleanup_attestation_cache_dom|].
  split; [exact Hseen|]. split; [exact Hnoop|]. split.
  - intros -> ->. split.
    + subst self'. rewrite cleanup_attestation_cache_dom. unfold dropped.
      split; (intros [? ?]; split; [done|lia]).
    + rewrite Hseen. unfold dropped.
      split; (intros [? ?]; split; [done|lia]).
  - intros -> ->. apply Hnoop. lia.
Qed.

Lemma cleanup_boundary_witness :
  (9 ∈ dom (attestation_cache (cleanup slots_4_5_9 10 5))
     ↔ 9 ∈ dom (attestation_cache slots_4_5_9) ∧ 5 ≤ 9)
  ∧ seen_in_block (cleanup slots_4_5_9 3 5) = seen_in_block slots_4_5_9.
Proof.
  split.
  - apply (cleanup_boundary slots_4_5_9 10 5 9); reflexivity.
  - apply (cleanup_boundary slots_4_5_9 3 5 0); [reflexivity|reflexivity].
Defined.

(** ** [clean_redundant_attestations] *)

Lemma insert_by_popcnt_Permutation a sorted :
  insert_by_popcnt a sorted ≡ₚ a :: sorted.
Proof.
  induction sorted as [|b sorted IH]; simpl; [done|].
  case_match; [|done]. rewrite IH. apply Permutation_swap.
Qed.

Lemma sort_by_popcnt_Permutation attestations :
  sort_by_popcnt attestations ≡ₚ attestations.
Proof.
  induction attestations as [|a l IH]; simpl; [done|].
  rewrite insert_by_popcnt_Permutation. by rewrite IH.
Qed.

Lemma insert_by_popcnt_ge a sorted x :
  x ∈ insert_by_popcnt a sorted → x = a ∨ x ∈ sorted.
Proof.
  intros Hx. apply (elem_of_Permutation_proper _ _ _ (insert_by_popcnt_Permutation a sorted)) in Hx.
  by apply elem_of_cons in Hx.
Qed.

(** The list comes out with the population counts in descending order. *)
Lemma sort_by_popcnt_sorted attestations :
  StronglySorted
    (λ a b, (popcnt (aggregation_bits b) ≤ popcnt (aggregation_bits a))%nat)
    (sort_by_popcnt attestations).
Proof.
  induction attestations as [|a l IH]; simpl; [constructor|].
  induction IH as [|b sorted Hsorted IHs Hall]; simpl; [repeat constructor|].
  destruct (Nat.ltb_spec (popcnt (aggregation_bits a))
                         (popcnt (aggregation_bits b))) as [Hlt|Hge].
  - constructor; [done|]. apply Forall_forall. intros x Hx.
    apply insert_by_popcnt_ge in Hx as [->|Hx]; [lia|].
    rewrite Forall_forall in Hall. by apply Hall.
  - constructor; [by constructor|]. constructor; [done|].
    rewrite Forall_forall in Hall. apply Forall_forall. intros x Hx.
    specialize (Hall x Hx). lia.
Qed.

(** The sort is stable: attestations of one population count keep their
    order. *)
Lemma sort_by_popcnt_stable attestations (count : nat) :
  filter (λ a, popcnt (aggregation_bits a) = count) (sort_by_popcnt attestations)
  = filter (λ a, popcnt (aggregation_bits a) = count) attestations.
Proof.
  induction attestations as [|a l IH]; simpl; [done|].
  rewrite filter_cons, <- IH. clear IH.
  induction (sort_by_popcnt l) as [|b sorted IHs]; simpl; [done|].
  destruct (Nat.ltb_spec (popcnt (aggregation_bits a))
                         (popcnt (aggregation_bits b))) as [Hlt|Hge].
  - rewrite !filter_cons, IHs.
    destruct (decide (popcnt (aggregation_bits b) = count)) as [Hb|Hb]; [|done].
    destruct (decide (popcnt (aggregation_bits a) = count)); [lia|done].
  - by rewrite !filter_cons.
Qed.

Lemma elem_of_keep_indexes i keep :
  i ∈ keep_indexes keep
  ↔ ∃ a, a ∈ keep ∧ i ∈ indices_inside_committee (aggregation_bits a).
Proof.
  unfold keep_indexes. rewrite list_elem_of_bind.
  split; intros (a & ? & ?); exists a; done.
Qed.

Lemma elem_of_positions i attestations :
  i ∈ positions attestations
  ↔ ∃ a, a ∈ attestations ∧ i ∈ indices_inside_committee (aggregation_bits a).
Proof.
  unfold positions. rewrite elem_of_list_to_set. apply elem_of_keep_indexes.
Qed.

(** A candidate is dropped when each of its positions is either covered by
    the kept attestations or is position 0. *)
Lemma keep_current_attestation_false keep a :
  keep_current_attestation keep a = false
  ↔ ∀ i, i ∈ indices_inside_committee (aggregation_bits a) →
         i ∈ keep_indexes keep ∨ i = 0.
Proof.
  unfold keep_current_attestation. rewrite <- not_true_iff_false.
  rewrite existsb_exists. split.
  - intros Hno i Hi.
    destruct (decide (i ∈ keep_indexes keep)) as [|Hout]; [by left|].
    right. destruct (decide (i = 0)) as [|Hnz]; [done|]. exfalso. apply Hno.
    exists i. split.
    + apply list_elem_of_In, list_elem_of_filter. done.
    + unfold truthy. apply negb_true_iff, N.eqb_neq. done.
  - intros Hall (i & Hi & Ht).
    apply list_elem_of_In, list_elem_of_filter in Hi as [Hout Hi].
    destruct (Hall i Hi) as [?| ->]; [done|]. discriminate.
Qed.

Lemma keep_step_bounds keep a :
  keep ⊆ keep_step keep a ∧ keep_step keep a ⊆ keep ++ [a].
Proof.
  unfold keep_step. case_match; split; try done.
  all: intros x Hx; apply elem_of_app; by left.
Qed.

Lemma keep_loop_from attestations keep :
  let keep' := foldl keep_step keep attestations in
  keep ⊆ keep'
  ∧ keep' ⊆ keep ++ attestations
  ∧ ∀ a i, a ∈ attestations →
      i ∈ indices_inside_committee (aggregation_bits a) → i ≠ 0 →
      i ∈ keep_indexes keep'.
Proof.
  revert keep. induction attestations as [|a rest IH]; intros keep; simpl.
  - split; [done|]. split; [by rewrite app_nil_r|].
    intros a i Ha. by apply elem_of_nil in Ha.
  - destruct (IH (keep_step keep a)) as (Hsub & Hsup & Hcov).
    destruct (keep_step_bounds keep a) as [Hs1 Hs2].
    split; [by etrans|]. split.
    + intros x Hx. apply Hsup in Hx. rewrite elem_of_app, elem_of_cons.
      apply elem_of_app in Hx as [Hx|Hx]; [|right; by right].
      apply Hs2, elem_of_app in Hx as [?|Hx]; [by left|].
      apply list_elem_of_singleton in Hx. right; by left.
    + intros b i Hb Hi Hnz.
      apply elem_of_cons in Hb as [->|Hb]; [|by eapply Hcov].
      assert (Hin : i ∈ keep_indexes (keep_step keep a)).
      { unfold keep_step. destruct (keep_current_attestation keep a) eqn:Hk.
        - apply elem_of_keep_indexes. exists a. split; [|done].
          apply elem_of_app. right. apply list_elem_of_here.
        - rewrite keep_current_attestation_false in Hk.
          destruct (Hk i Hi) as [?|?]; done. }
      apply elem_of_keep_indexes in Hin as (c & Hc & Hic).
      apply elem_of_keep_indexes. exists c. split; [by apply Hsub|done].
Qed.

(** Pruning keeps only attestations that were there. *)
Lemma clean_committee_subseteq attestations :
  clean_committee attestations ⊆ attestations.
Proof.
  intros a Ha. unfold clean_committee, keep_loop in Ha.
  destruct (keep_loop_from (sort_by_popcnt attestations) []) as (_ & Hsup & _).
  apply Hsup in Ha. simpl in Ha. by rewrite sort_by_popcnt_Permutation in Ha.
Qed.

(** Every position other than 0 survives the pruning, and no position is
    invented. *)
Lemma clean_committee_positions attestations i :
  (i ∈ positions (clean_committee attestations) → i ∈ positions attestations)
  ∧ (i ≠ 0 → i ∈ positions attestations →
     i ∈ positions (clean_committee attestations)).
Proof.
  split.
  - rewrite !elem_of_positions. intros (a & Ha & Hi).
    exists a. split; [by apply clean_committee_subseteq|done].
  - intros Hnz. rewrite elem_of_positions. intros (a & Ha & Hi).
    unfold positions. rewrite elem_of_list_to_set.
    destruct (keep_loop_from (sort_by_popcnt attestations) []) as (_ & _ & Hcov).
    apply (Hcov a i); [|done|done]. by rewrite sort_by_popcnt_Permutation.
Qed.

(** The cached list of a (slot, committee) after the call is the pruned
    list of before. *)
Lemma clean_redundant_attestations_cached self slot committee :
  cached_attestations (clean_redundant_attestations self) slot committee
  = clean_committee (cached_attestations self slot committee)
  ∨ (cached_attestations (clean_redundant_attestations self) slot committee = []
     ∧ cached_attestations self slot committee = []).
Proof.
  unfold cached_attestations, clean_redundant_attestations; simpl.
  rewrite lookup_fmap. destruct (attestation_cache self !! slot) as [m|]; simpl.
  - rewrite lookup_fmap. destruct (m !! committee); simpl; [by left|by right].
  - by right.
Qed.

(** C2: on the cache that holds one attestation in which only the first
    committee member took part, the union of positions is {0} before
    [clean_redundant_attestations] and empty after it: the attestation is
    dropped although nothing kept covers its position. *)
Theorem clean_redundant_attestations_drops_position_0 :
  cached_attestations first_member_only 1 0 = [vote [true]]
  ∧ positions (cached_attestations first_member_only 1 0) = {[0]}
  ∧ cached_attestations (clean_redundant_attestations first_member_only) 1 0 = []
  ∧ positions
      (cached_attestations (clean_redundant_attestations first_member_only) 1 0)
    = ∅.
Proof. vm_compute. repeat split; reflexivity. Qed.

(** * Properties of BlockCache *)

(** ** The padding loop *)

Lemma pad_while_eq turns accepted slot :
  (S (N.to_nat slot) - length accepted ≤ turns)%nat →
  pad_while turns accepted slot
  = accepted ++ replicate (S (N.to_nat slot) - length accepted) None.
Proof.
  revert accepted. induction turns as [|turns IH]; intros accepted Hturns; simpl.
  - replace (S (N.to_nat slot) - length accepted)%nat with O by lia.
    by rewrite app_nil_r.
  - destruct (N.leb_spec (N.of_nat (length accepted)) slot) as [Hle|Hgt].
    + rewrite IH by (rewrite length_app; simpl; lia).
      rewrite length_app; simpl.
      replace (S (N.to_nat slot) - length accepted)%nat
        with (S (S (N.to_nat slot) - (length accepted + 1)))%nat by lia.
      simpl. by rewrite <- app_assoc.
    + replace (S (N.to_nat slot) - length accepted)%nat with O by lia.
      by rewrite app_nil_r.
Qed.

Lemma pad_accepted_eq accepted slot :
  pad_accepted accepted slot
  = accepted ++ replicate (S (N.to_nat slot) - length accepted) None.
Proof. apply pad_while_eq. lia. Qed.

Lemma length_pad_accepted accepted slot :
  (N.to_nat slot < length (pad_accepted accepted slot))%nat.
Proof. rewrite pad_accepted_eq, length_app, length_replicate. lia. Qed.

Lemma elem_of_pad_accepted accepted slot (root : Root) :
  Some root ∈ pad_accepted accepted slot ↔ Some root ∈ accepted.
Proof.
  rewrite pad_accepted_eq, elem_of_app. split; [|by left].
  intros [?|H]; [done|]. by apply elem_of_replicate in H as [? _].
Qed.

Lemma pad_accepted_lookup accepted slot :
  pad_accepted accepted slot !! N.to_nat slot
  = Some (default None (accepted !! N.to_nat slot)).
Proof.
  rewrite pad_accepted_eq.
  destruct (decide (N.to_nat slot < length accepted)%nat) as [Hlt|Hge].
  - rewrite lookup_app_l by done.
    destruct (lookup_lt_is_Some_2 _ _ Hlt) as [x ->]. done.
  - rewrite lookup_app_r by lia. rewrite (lookup_ge_None_2 accepted) by lia.
    simpl. apply lookup_replicate_2. lia.
Qed.

(** Nothing is appended when the slot already has an entry. *)
Lemma pad_accepted_id accepted slot :
  is_Some (accepted !! N.to_nat slot) → pad_accepted accepted slot = accepted.
Proof.
  intros Hsome%lookup_lt_is_Some_1. rewrite pad_accepted_eq.
  replace (S (N.to_nat slot) - length accepted)%nat with O by lia.
  apply app_nil_r.
Qed.

Section BlockCacheFacts.

Variable hash_tree_root : BeaconBlock → Root.

(** ** [add_block] *)

(** The three ways a call of [add_block] ends. *)
Lemma add_block_cases self block root :
  let r := default (hash_tree_root (message block)) root in
  let blocks' := <[r := block]> (blocks self) in
  let accepted' := pad_accepted (accepted self) (slot (message block)) in
  add_block hash_tree_root self block root =
    if decide (Some r ∈ accepted self) then
      ({| blocks := blocks'; accepted := accepted self;
          outstanding := outstanding self |}, Ok ())
    else
      match accepted self !! N.to_nat (slot (message block)) with
      | Some (Some _) =>
          ({| blocks := blocks'; accepted := accepted';
              outstanding := outstanding self |}, Raise ValueError)
      | _ =>
          ({| blocks := blocks'; accepted := accepted';
              outstanding := {[r]} ∪ outstanding self |}, Ok ())
      end.
Proof.
  intros r blocks' accepted'. unfold add_block. cbv zeta.
  subst r blocks' accepted'.
  destruct (decide (Some (default (hash_tree_root (message block)) root)
                      ∈ accepted self)) as [Hin|Hout]; [done|].
  rewrite pad_accepted_lookup.
  destruct (accepted self !! N.to_nat (slot (message block)))
    as [[r'|]|] eqn:Hlook; cbn [from_option id].
  - case_decide as H; [done|]. exfalso. apply H. split; [done|].
    intros [= ->]. apply Hout. by eapply list_elem_of_lookup_2.
  - case_decide as H; [|done]. by destruct H.
  - case_decide as H; [|done]. by destruct H.
Qed.

Lemma add_block_blocks self block root :
  blocks (add_block hash_tree_root self block root).1
  = <[default (hash_tree_root (message block)) root := block]> (blocks self).
Proof.
  rewrite add_block_cases. simpl. case_decide; [done|].
  by repeat case_match.
Qed.

Lemma add_block_accepted_elem self block root (r : Root) :
  Some r ∈ accepted (add_block hash_tree_root self block root).1
  ↔ Some r ∈ accepted self.
Proof.
  rewrite add_block_cases. simpl. case_decide; [done|].
  repeat case_match; simpl; apply elem_of_pad_accepted.
Qed.

Lemma add_block_outstanding self block root (r : Root) :
  r ∈ outstanding (add_block hash_tree_root self block root).1 →
  r ∈ outstanding self ∨ r = default (hash_tree_root (message block)) root.
Proof.
  rewrite add_block_cases. simpl. case_decide; [by left|].
  repeat case_match; simpl; try (by left).
  all: rewrite elem_of_union, elem_of_singleton; tauto.
Qed.

Lemma add_block_ValueError self block root self' :
  add_block hash_tree_root self block root = (self', Raise ValueError) →
  let r := default (hash_tree_root (message block)) root in
  ((Some r ∉ accepted self)
   ∧ (∃ r', accepted self !! N.to_nat (slot (message block)) = Some (Some r')
            ∧ r' ≠ r)
   ∧ self' = {| blocks := <[r := block]> (blocks self);
                accepted := pad_accepted (accepted self) (slot (message block));
                outstanding := outstanding self |}).
Proof.
  rewrite add_block_cases. simpl. case_decide as Hin; [intros [= ]|].
  destruct (accepted self !! N.to_nat (slot (message block)))
    as [[r'|]|] eqn:Hlook; intros [= <-].
  split; [done|]. split; [|done]. exists r'. split; [done|].
  intros ->. apply Hin. by eapply list_elem_of_lookup_2.
Qed.

(** ** [accept_block] *)

Lemma accept_one_Ok self block :
  (N.to_nat (slot (message block)) < length (accepted self))%nat →
  accept_one hash_tree_root self block
  = ({| blocks := blocks self;
        accepted := <[N.to_nat (slot (message block))
                      := Some (hash_tree_root (message block))]> (accepted self);
        outstanding := outstanding self ∖ {[hash_tree_root (message block)]} |},
     Ok ()).
Proof. intros Hlt. unfold accept_one. by rewrite decide_True. Qed.

Lemma accept_one_blocks self block :
  blocks (accept_one hash_tree_root self block).1 = blocks self.
Proof. unfold accept_one. by case_decide. Qed.

Lemma accept_one_accepted_elem self block (r : Root) :
  Some r ∈ accepted (accept_one hash_tree_root self block).1 →
  Some r ∈ accepted self ∨ r = hash_tree_root (message block).
Proof.
  unfold accept_one. case_decide; simpl; [|by left].
  intros (i & Hi)%list_elem_of_lookup_1.
  apply list_lookup_insert_Some in Hi as [(_ & [= ->] & _)|(_ & Hi)]; [by right|].
  left. by eapply list_elem_of_lookup_2.
Qed.

Lemma accept_one_outstanding self block :
  outstanding (accept_one hash_tree_root self block).1 ⊆ outstanding self.
Proof.
  unfold accept_one. case_decide; simpl; [|done].
  intros r. rewrite elem_of_difference. tauto.
Qed.

Lemma accept_block_blocks self kargs :
  blocks (accept_block hash_tree_root self kargs).1 = blocks self.
Proof.
  revert self. induction kargs as [|block rest IH]; intros self; simpl; [done|].
  destruct (accept_one hash_tree_root self block) as [self' [[]|e]] eqn:Hone.
  - rewrite IH. by rewrite <- (accept_one_blocks self block), Hone.
  - simpl. by rewrite <- (accept_one_blocks self block), Hone.
Qed.

Lemma accept_block_accepted_elem self kargs (r : Root) :
  Some r ∈ accepted (accept_block hash_tree_root self kargs).1 →
  Some r ∈ accepted self
  ∨ ∃ block, block ∈ kargs ∧ r = hash_tree_root (message block).
Proof.
  revert self. induction kargs as [|block rest IH]; intros self; simpl;
    [by left|].
  pose proof (accept_one_accepted_elem self block r) as Hone.
  destruct (accept_one hash_tree_root self block) as [self' [[]|e]]; simpl in *.
  - intros [Hin|(b & Hb & ->)]%IH.
    + destruct (Hone Hin) as [?| ->]; [by left|].
      right. exists block. split; [apply list_elem_of_here|done].
    + right. exists b. split; [by apply list_elem_of_further|done].
  - intros Hin. destruct (Hone Hin) as [?| ->]; [by left|].
    right. exists block. split; [apply list_elem_of_here|done].
Qed.

Lemma accept_block_outstanding self kargs :
  outstanding (accept_block hash_tree_root self kargs).1 ⊆ outstanding self.
Proof.
  revert self. induction kargs as [|block rest IH]; intros self; simpl; [done|].
  pose proof (accept_one_outstanding self block) as Hone.
  destruct (accept_one hash_tree_root self block) as [self' [[]|e]]; simpl in *.
  - etrans; [apply IH|done].
  - done.
Qed.

End BlockCacheFacts.

(** ** Conflicts at one height *)

(** [blockA] and [blockB] are both at slot 5; after [blockA] was added,
    adding [blockB] raises nothing and leaves both roots outstanding. *)
Example add_block_twice_at_slot_5 :
  let self := (add_block field_hash (BlockCache_init field_hash genesis0)
                 blockA None).1 in
  add_block field_hash self blockB None
  = ({| blocks := <[field_hash (message blockB) := blockB]> (blocks self);
        accepted := [Some (field_hash genesis0); None; None; None; None; None];
        outstanding := {[field_hash (message blockA);
                         field_hash (message blockB)]} |}, Ok ()).
Proof. vm_compute. reflexivity. Qed.

(** C1, as stated, fails: with genesis at slot 0, [add_block(blockA)] at
    slot 5 followed by [add_block(blockB)] at slot 5, a child of genesis
    with another root, does not raise the conflict error. *)
Lemma second_block_at_same_height_not_raised :
  slot genesis0 = 0
  ∧ slot (message blockA) = 5
  ∧ slot (message blockB) = 5
  ∧ parent_root (message blockB) = field_hash genesis0
  ∧ field_hash (message blockB) ≠ field_hash (message blockA)
  ∧ (add_block field_hash
       (add_block field_hash (BlockCache_init field_hash genesis0)
          blockA None).1
       blockB None).2 ≠ Raise ValueError.
Proof.
  repeat split; try reflexivity.
  - vm_compute. discriminate.
  - vm_compute. discriminate.
Qed.

Section Conflict.

Variable hash_tree_root : BeaconBlock → Root.

Lemma add_block_first genesis A :
  hash_tree_root (message A) ≠ hash_tree_root genesis →
  0 < slot (message A) →
  add_block hash_tree_root (BlockCache_init hash_tree_root genesis) A None
  = ({| blocks := <[hash_tree_root (message A) := A]>
                    (blocks (BlockCache_init hash_tree_root genesis));
        accepted := pad_accepted [Some (hash_tree_root genesis)]
                                 (slot (message A));
        outstanding := {[hash_tree_root (message A)]} ∪ ∅ |}, Ok ()).
Proof.
  intros HA Hslot. rewrite add_block_cases. simpl.
  rewrite decide_False by (rewrite list_elem_of_singleton; congruence).
  destruct (N.to_nat (slot (message A))) as [|n] eqn:Hn; [lia|]. done.
Qed.

(** C1, amended: the conflict error is raised against the root that was
    accepted for the slot.  After construction with genesis,
    [add_block(A)] and [accept_block(A)] at a slot above 0 (slot 5 in the
    scenario), [add_block(B)] with a different root at the same slot
    raises the conflict error; when [A] was added but not accepted, the
    same call raises nothing. *)
Theorem add_block_conflict_with_accepted (genesis : BeaconBlock)
    (A B : SignedBeaconBlock) :
  hash_tree_root (message A) ≠ hash_tree_root genesis →
  hash_tree_root (message B) ≠ hash_tree_root genesis →
  hash_tree_root (message B) ≠ hash_tree_root (message A) →
  0 < slot (message A) →
  slot (message B) = slot (message A) →
  let self1 :=
    (add_block hash_tree_root (BlockCache_init hash_tree_root genesis)
       A None).1 in
  let self2 := (accept_block hash_tree_root self1 [A]).1 in
  ((add_block hash_tree_root self1 B None).2 = Ok ()
   ∧ (accept_block hash_tree_root self1 [A]).2 = Ok ()
   ∧ (add_block hash_tree_root self2 B None).2 = Raise ValueError).
Proof.
  intros HA HB HBA Hslot HsB self1 self2.
  assert (Hnot_in :
    Some (hash_tree_root (message B))
    ∉ pad_accepted [Some (hash_tree_root genesis)] (slot (message A))).
  { rewrite elem_of_pad_accepted, list_elem_of_singleton. congruence. }
  assert (Hnth :
    [Some (hash_tree_root genesis)] !! N.to_nat (slot (message A)) = None).
  { destruct (N.to_nat (slot (message A))) as [|n] eqn:Hn; [lia|done]. }
  subst self2 self1. rewrite add_block_first by done. cbn [fst].
  split; [|split].
  - rewrite add_block_cases.
    cbn [blocks accepted outstanding default from_option id].
    rewrite decide_False by done.
    rewrite HsB, pad_accepted_lookup, Hnth. done.
  - cbn [accept_block]. rewrite accept_one_Ok by apply length_pad_accepted.
    done.
  - cbn [accept_block]. rewrite accept_one_Ok by apply length_pad_accepted.
    cbn [fst accepted blocks outstanding].
    rewrite add_block_cases.
    cbn [blocks accepted outstanding default from_option id].
    rewrite decide_False.
    + rewrite HsB, list_lookup_insert_eq by apply length_pad_accepted. done.
    + intros (i & Hi)%list_elem_of_lookup_1.
      apply list_lookup_insert_Some in Hi as [(_ & [= ?] & _)|(_ & Hi)];
        [done|].
      apply Hnot_in. by eapply list_elem_of_lookup_2.
Qed.

(** C10: a call of [add_block] that raises the conflict error has stored
    the block under its root, has run the padding loop, so that the
    accepted sequence is the old one followed by placeholders only and
    has an entry for the block's slot, and has left [outstanding] as it
    was. *)
Theorem add_block_conflict_not_atomic (self self' : BlockCache)
    (block : SignedBeaconBlock) (root : option Root) :
  add_block hash_tree_root self block root = (self', Raise ValueError) →
  let r := default (hash_tree_root (message block)) root in
  (blocks self' = <[r := block]> (blocks self)
   ∧ blocks self' !! r = Some block
   ∧ accepted self' = pad_accepted (accepted self) (slot (message block))
   ∧ (∃ n, accepted self' = accepted self ++ replicate n None)
   ∧ (N.to_nat (slot (message block)) < length (accepted self'))%nat
   ∧ outstanding self' = outstanding self).
Proof.
  intros (_ & _ & ->)%add_block_ValueError r. subst r. simpl.
  split; [done|]. split; [apply lookup_insert_eq|]. split; [done|].
  split; [|split; [apply length_pad_accepted|done]].
  eexists. apply pad_accepted_eq.
Qed.

(** In that case the loop had nothing to append. *)
Lemma add_block_conflict_accepted_unchanged self self' block root :
  add_block hash_tree_root self block root = (self', Raise ValueError) →
  accepted self' = accepted self.
Proof.
  intros (_ & (r' & Hr' & _) & ->)%add_block_ValueError. simpl.
  apply pad_accepted_id. by eexists.
Qed.

End Conflict.

Lemma add_block_conflict_with_accepted_witness :
  let self1 :=
    (add_block field_hash (BlockCache_init field_hash genesis0) blockA None).1 in
  let self2 := (accept_block field_hash self1 [blockA]).1 in
  ((add_block field_hash self1 blockB None).2 = Ok ()
   ∧ (accept_block field_hash self1 [blockA]).2 = Ok ()
   ∧ (add_block field_hash self2 blockB None).2 = Raise ValueError).
Proof.
  apply (add_block_conflict_with_accepted field_hash genesis0 blockA blockB).
  - vm_compute. discriminate.
  - vm_compute. discriminate.
  - vm_compute. discriminate.
  - reflexivity.
  - reflexivity.
Defined.

Lemma add_block_conflict_not_atomic_witness :
  let self := (accept_block field_hash
                 (add_block field_hash (BlockCache_init field_hash genesis0)
                    blockA None).1 [blockA]).1 in
  let self' := (add_block field_hash self blockB None).1 in
  let r := field_hash (message blockB) in
  (blocks self' = <[r := blockB]> (blocks self)
   ∧ blocks self' !! r = Some blockB
   ∧ accepted self' = pad_accepted (accepted self) 5
   ∧ (∃ n, accepted self' = accepted self ++ replicate n None)
   ∧ (5 < length (accepted self'))%nat
   ∧ outstanding self' = outstanding self).
Proof.
  intros self self' r.
  apply (add_block_conflict_not_atomic field_hash self self' blockB None).
  vm_compute. reflexivity.
Defined.

(** ** Accepted roots and the blocks mapping *)

(** C8, as stated, fails: [accept_block] writes the root of whatever block
    it is given into [accepted].  After construction with [genesis0],
    [accept_block(stranger)] leaves the root of [stranger] at slot 0 of
    [accepted], and that root is no key of [blocks]. *)
Lemma accepted_root_missing_from_blocks :
  let self := (accept_block field_hash (BlockCache_init field_hash genesis0)
                 [stranger]).1 in
  reachable field_hash genesis0 self
  ∧ Some (field_hash (message stranger)) ∈ accepted self
  ∧ (field_hash (message stranger) ∉ dom (blocks self))
  ∧ ¬ accepted_in_blocks self.
Proof.
  intros self.
  assert (Hin : Some (field_hash (message stranger)) ∈ accepted self).
  { vm_compute. apply list_elem_of_here. }
  assert (Hout : field_hash (message stranger) ∉ dom (blocks self)).
  { rewrite elem_of_dom. vm_compute. intros [x Hx]. discriminate. }
  split; [apply reachable_accept_block, reachable_init|].
  split; [done|]. split; [done|].
  intros Hinv. apply Hout, Hinv, Hin.
Qed.

Section Invariants.

Variable hash_tree_root : BeaconBlock → Root.

Lemma BlockCache_init_accepted_in_blocks genesis :
  accepted_in_blocks (BlockCache_init hash_tree_root genesis).
Proof.
  intros r Hr. simpl in Hr. apply list_elem_of_singleton in Hr as [= ->].
  simpl. rewrite dom_singleton_L. by apply elem_of_singleton.
Qed.

Lemma add_block_accepted_in_blocks self block root :
  accepted_in_blocks self →
  accepted_in_blocks (add_block hash_tree_root self block root).1.
Proof.
  intros Hinv r Hr. apply add_block_accepted_elem in Hr.
  rewrite add_block_blocks, dom_insert_L, elem_of_union. right. by apply Hinv.
Qed.

Lemma accept_block_accepted_in_blocks self kargs :
  Forall (λ block, hash_tree_root (message block) ∈ dom (blocks self)) kargs →
  accepted_in_blocks self →
  accepted_in_blocks (accept_block hash_tree_root self kargs).1.
Proof.
  intros Hknown Hinv r Hr. rewrite accept_block_blocks.
  apply accept_block_accepted_elem in Hr as [Hr|(block & Hblock & ->)].
  - by apply Hinv.
  - rewrite Forall_forall in Hknown. by apply Hknown.
Qed.

(** C8, amended: when [accept_block] is only called with blocks whose
    root is already a key of [blocks], every state reached from
    construction by calls of [add_block] and [accept_block] has each
    non-empty root of [accepted] among the keys of [blocks]. *)
Theorem accepted_in_blocks_invariant (genesis : BeaconBlock)
    (self : BlockCache) :
  reachable_known hash_tree_root genesis self → accepted_in_blocks self.
Proof.
  induction 1 as [|self block root _ IH|self kargs _ IH Hknown].
  - apply BlockCache_init_accepted_in_blocks.
  - by apply add_block_accepted_in_blocks.
  - by apply accept_block_accepted_in_blocks.
Qed.

(** Outstanding roots are keys of [blocks] in every reachable state. *)
Lemma outstanding_in_blocks genesis self :
  reachable hash_tree_root genesis self →
  outstanding self ⊆ dom (blocks self).
Proof.
  induction 1 as [|self block root _ IH|self kargs _ IH].
  - simpl. intros r Hr. by apply elem_of_empty in Hr.
  - intros r Hr. rewrite add_block_blocks, dom_insert_L, elem_of_union.
    apply add_block_outstanding in Hr as [Hr| ->].
    + right. by apply IH.
    + left. by apply elem_of_singleton.
  - rewrite accept_block_blocks. etrans; [apply accept_block_outstanding|done].
Qed.

End Invariants.

Lemma accepted_in_blocks_invariant_witness :
  accepted_in_blocks
    (accept_block field_hash
       (add_block field_hash (BlockCache_init field_hash genesis0)
          blockA None).1 [blockA]).1.
Proof.
  apply (accepted_in_blocks_invariant field_hash genesis0).
  apply reachable_known_accept_block.
  - apply reachable_known_add_block, reachable_known_init.
  - apply Forall_cons. split; [|apply Forall_nil_2].
    apply elem_of_dom. vm_compute. eexists. reflexivity.
Defined.

(** ** The ancestor walk *)

Section Chain.

Variable hash_tree_root : BeaconBlock → Root.
Implicit Types (self : BlockCache) (store : Store) (block : SignedBeaconBlock).

(** One frame of the recursion. *)
Lemma chain_for_block_rec_S depth self block root chain store :
  chain_for_block_rec (S depth) self block root chain store
  = if decide (root ∈ dom (store_blocks store)) then Ok chain
    else if slot (message block) =? 0 then Ok chain
    else match blocks self !! parent_root (message block) with
         | None => Raise (KeyError (ParentNotKnown (parent_root (message block)) root))
         | Some parent =>
             match chain_for_block_rec depth self parent
                     (parent_root (message block)) chain store with
             | Ok chain' => Ok (chain' ++ [block])
             | Raise e => Raise e
             end
         end.
Proof. reflexivity. Qed.

(** The list passed in is only ever extended. *)
Lemma chain_for_block_rec_chain depth self block root chain store :
  chain_for_block_rec depth self block root chain store
  = match chain_for_block_rec depth self block root [] store with
    | Ok path => Ok (chain ++ path)
    | Raise e => Raise e
    end.
Proof.
  revert block root. induction depth as [|depth IH]; intros block root; [done|].
  rewrite !chain_for_block_rec_S.
  case_decide; [by rewrite app_nil_r|].
  case_match; [by rewrite app_nil_r|].
  destruct (blocks self !! parent_root (message block)) as [parent|]; [|done].
  rewrite IH.
  destruct (chain_for_block_rec depth self parent _ [] store); [|done].
  by rewrite app_assoc.
Qed.

(** A run that ended within the recursion limit ends the same way under
    any larger limit. *)
Lemma chain_for_block_rec_mono depth depth' self block root chain store :
  (depth ≤ depth')%nat →
  chain_for_block_rec depth self block root chain store ≠ Raise RecursionError →
  chain_for_block_rec depth' self block root chain store
  = chain_for_block_rec depth self block root chain store.
Proof.
  revert depth' block root.
  induction depth as [|depth IH]; intros depth' block root Hle Hend; [done|].
  destruct depth' as [|depth']; [lia|].
  rewrite !chain_for_block_rec_S in *.
  case_decide; [done|]. case_match; [done|].
  destruct (blocks self !! parent_root (message block)) as [parent|]; [|done].
  rewrite IH; [done|lia|].
  intros Heq. by rewrite Heq in Hend.
Qed.

(** The only exceptions of the walk. *)
Lemma chain_for_block_rec_Raise depth self block root chain store e :
  chain_for_block_rec depth self block root chain store = Raise e →
  e = RecursionError ∨ ∃ parent r, e = KeyError (ParentNotKnown parent r).
Proof.
  revert block root. induction depth as [|depth IH]; intros block root.
  - intros [= <-]. by left.
  - rewrite chain_for_block_rec_S.
    case_decide; [done|]. case_match; [done|].
    destruct (blocks self !! parent_root (message block)) as [parent|].
    + destruct (chain_for_block_rec depth self parent _ chain store) eqn:Hrec;
        [done|]. intros [= <-]. by eapply IH.
    + intros [= <-]. right. eauto.
Qed.

Lemma chain_for_block_rec_ancestors depth self block root store path :
  chain_for_block_rec depth self block root [] store = Ok path →
  ancestors self store block root path.
Proof.
  revert block root path.
  induction depth as [|depth IH]; intros block root path; [done|].
  rewrite chain_for_block_rec_S.
  case_decide; [intros [= <-]; by constructor|].
  destruct (N.eqb_spec (slot (message block)) 0) as [Hz|Hnz];
    [intros [= <-]; by constructor|].
  destruct (blocks self !! parent_root (message block)) as [parent|] eqn:Hp;
    [|done].
  destruct (chain_for_block_rec depth self parent _ [] store) as [path'|]
    eqn:Hrec; [|done].
  intros [= <-]. apply ancestors_parent with (parent := parent); try done.
  by apply IH.
Qed.

Lemma ancestors_chain_for_block_rec self block root store path :
  ancestors self store block root path →
  ∃ depth, chain_for_block_rec depth self block root [] store = Ok path.
Proof.
  induction 1 as [block root Hk|block root Hk Hz|block root parent path Hk Hnz Hp _ [depth IH]].
  - exists 1%nat. rewrite chain_for_block_rec_S. by rewrite decide_True.
  - exists 1%nat. rewrite chain_for_block_rec_S. rewrite decide_False by done.
    by rewrite Hz.
  - exists (S depth). rewrite chain_for_block_rec_S, decide_False by done.
    apply N.eqb_neq in Hnz. by rewrite Hnz, Hp, IH.
Qed.

Lemma ancestors_nil self store block root path :
  ancestors self store block root path →
  path = [] ↔ root ∈ dom (store_blocks store) ∨ slot (message block) = 0.
Proof.
  destruct 1 as [| |block root parent path Hk Hnz _ _].
  - split; [by left|done].
  - split; [by right|done].
  - split; [intros [_ ?]%app_eq_nil; done|]. tauto.
Qed.

Lemma ancestors_last self store block root path :
  ancestors self store block root path →
  path ≠ [] →
  last path = Some block ∧ root ∉ dom (store_blocks store).
Proof.
  destruct 1; [done|done|]. intros _. by rewrite last_snoc.
Qed.

Lemma ancestors_slot self store block root path x :
  ancestors self store block root path →
  x ∈ path → slot (message x) ≠ 0.
Proof.
  induction 1 as [| |block root parent path Hk Hnz Hp _ IH];
    [by intros ?%elem_of_nil..|].
  intros [?|Hx]%elem_of_app; [by apply IH|].
  by apply list_elem_of_singleton in Hx as ->.
Qed.

Lemma ancestors_adjacent self store block root path i x y :
  ancestors self store block root path →
  path !! i = Some x → path !! S i = Some y →
  blocks self !! parent_root (message y) = Some x
  ∧ parent_root (message y) ∉ dom (store_blocks store).
Proof.
  induction 1 as [| |block root parent path Hk Hnz Hp Hanc IH];
    [done|done|].
  intros Hx Hy.
  destruct (decide (S i < length path)%nat) as [Hlt|Hge].
  - rewrite lookup_app_l in Hx by lia. rewrite lookup_app_l in Hy by lia.
    by apply IH.
  - assert (S i = length path) as Hlen.
    { apply lookup_lt_Some in Hy. rewrite length_app in Hy. simpl in Hy. lia. }
    rewrite lookup_app_l in Hx by lia.
    rewrite Hlen, lookup_app_r in Hy by lia.
    replace (length path - length path)%nat with O in Hy by lia.
    injection Hy as <-.
    assert (path ≠ []) as Hne by (by intros ->).
    destruct (ancestors_last _ _ _ _ _ Hanc Hne) as [Hlast Hout].
    rewrite last_lookup in Hlast.
    replace (pred (length path)) with i in Hlast by lia.
    rewrite Hx in Hlast. injection Hlast as ->. done.
Qed.

Lemma ancestors_head self store block root path x :
  ancestors self store block root path →
  path !! 0%nat = Some x →
  parent_root (message x) ∈ dom (store_blocks store)
  ∨ ∃ parent, blocks self !! parent_root (message x) = Some parent
              ∧ slot (message parent) = 0.
Proof.
  induction 1 as [| |block root parent path Hk Hnz Hp Hanc IH];
    [done|done|].
  destruct path as [|z path].
  - intros [= <-]. apply ancestors_nil in Hanc.
    destruct (proj1 Hanc eq_refl) as [?|?]; [by left|]. right. eauto.
  - intros Hx. by apply IH.
Qed.

(** What [chain_for_block] returns, when it returns. *)
Lemma chain_for_block_ancestors depth self block store chain :
  chain_for_block hash_tree_root depth self block store = Ok chain →
  ancestors self store block (hash_tree_root (message block)) chain.
Proof. apply chain_for_block_rec_ancestors. Qed.

(** The blocks mapping after genesis and three calls of [add_block]. *)
Lemma blocks_after_three genesis A B C :
  blocks
    (add_block hash_tree_root
       (add_block hash_tree_root
          (add_block hash_tree_root
             (BlockCache_init hash_tree_root genesis) A None).1
          B None).1
       C None).1
  = <[hash_tree_root (message C) := C]>
      (<[hash_tree_root (message B) := B]>
         (<[hash_tree_root (message A) := A]>
            {[hash_tree_root genesis
              := {| message := genesis; signature := 0 |}]})).
Proof. by rewrite !add_block_blocks. Qed.

(** C4: after genesis, [A], [B] and [C] were added, each the child of the
    one before, with a store that knows genesis only,
    [chain_for_block(C)] returns [A, B, C].  In general a returned chain
    is empty exactly when the block's root is known to the store or the
    block is at slot 0; otherwise it ends with the block, every block of
    it is the cached parent of the next one, no block of it is at slot 0
    or was visited under a root the store knows, and the parent of its
    first block is known to the store or is a cached block at slot 0. *)
Theorem chain_for_block_oldest_to_newest :
  (∀ (genesis : BeaconBlock) (A B C : SignedBeaconBlock) (store : Store)
     (depth : nat),
     parent_root (message A) = hash_tree_root genesis →
     parent_root (message B) = hash_tree_root (message A) →
     parent_root (message C) = hash_tree_root (message B) →
     slot (message A) ≠ 0 → slot (message B) ≠ 0 → slot (message C) ≠ 0 →
     NoDup [hash_tree_root genesis; hash_tree_root (message A);
            hash_tree_root (message B); hash_tree_root (message C)] →
     dom (store_blocks store) = {[hash_tree_root genesis]} →
     (4 ≤ depth)%nat →
     chain_for_block hash_tree_root depth
       (add_block hash_tree_root
          (add_block hash_tree_root
             (add_block hash_tree_root
                (BlockCache_init hash_tree_root genesis) A None).1
             B None).1
          C None).1
       C store
     = Ok [A; B; C])
  ∧ (∀ (self : BlockCache) (block : SignedBeaconBlock) (store : Store)
       (depth : nat) (chain : list SignedBeaconBlock),
       chain_for_block hash_tree_root depth self block store = Ok chain →
       (chain = [] ↔ hash_tree_root (message block) ∈ dom (store_blocks store)
                     ∨ slot (message block) = 0)
       ∧ (chain ≠ [] → last chain = Some block)
       ∧ (∀ i x y, chain !! i = Some x → chain !! S i = Some y →
            blocks self !! parent_root (message y) = Some x
            ∧ (parent_root (message y) ∉ dom (store_blocks store)))
       ∧ (∀ x, x ∈ chain → slot (message x) ≠ 0)
       ∧ (∀ x, chain !! 0%nat = Some x →
            parent_root (message x) ∈ dom (store_blocks store)
            ∨ ∃ parent, blocks self !! parent_root (message x) = Some parent
                        ∧ slot (message parent) = 0)).
Proof.
  split.
  - intros genesis A B C store depth HpA HpB HpC HsA HsB HsC Hnodup Hstore Hdepth.
    apply NoDup_cons in Hnodup as [HgABC Hnodup].
    apply NoDup_cons in Hnodup as [HABC Hnodup].
    apply NoDup_cons in Hnodup as [HBC _].
    rewrite !not_elem_of_cons in HgABC.
    rewrite !not_elem_of_cons in HABC.
    rewrite !not_elem_of_cons in HBC.
    destruct HgABC as (HgA & HgB & HgC & _), HABC as (HAB & HAC & _),
      HBC as (HBC & _).
    do 4 (destruct depth as [|depth]; [lia|]).
    unfold chain_for_block.
    assert (Hout : ∀ r, r ≠ hash_tree_root genesis →
              r ∉ dom (store_blocks store)).
    { intros r Hr. rewrite Hstore, elem_of_singleton. done. }
    assert (Hin : hash_tree_root genesis ∈ dom (store_blocks store)).
    { rewrite Hstore. by apply elem_of_singleton. }
    apply N.eqb_neq in HsA, HsB, HsC.
    pose proof (blocks_after_three genesis A B C) as Hblocks.
    set (self := (add_block hash_tree_root _ C None).1) in *.
    rewrite chain_for_block_rec_S, decide_False, HsC by (apply Hout; congruence).
    rewrite Hblocks, HpC.
    rewrite lookup_insert_ne, lookup_insert_eq by congruence.
    rewrite chain_for_block_rec_S, decide_False, HsB by (apply Hout; congruence).
    rewrite Hblocks, HpB.
    rewrite lookup_insert_ne, lookup_insert_ne, lookup_insert_eq by congruence.
    rewrite chain_for_block_rec_S, decide_False, HsA by (apply Hout; congruence).
    rewrite Hblocks, HpA.
    rewrite !lookup_insert_ne, lookup_singleton_eq by congruence.
    rewrite chain_for_block_rec_S, decide_True by done.
    done.
  - intros self block store depth chain Hanc%chain_for_block_ancestors.
    split; [by eapply ancestors_nil|].
    split; [intros Hne; by eapply ancestors_last|].
    split; [intros i x y; by eapply ancestors_adjacent|].
    split; [intros x; by eapply ancestors_slot|].
    intros x. by eapply ancestors_head.
Qed.

(** ** Missing ancestors *)

Lemma walk_reaches_missing_parent self store x block' root' :
  walk_reaches self store x (block', root') →
  root' ∉ dom (store_blocks store) →
  slot (message block') ≠ 0 →
  blocks self !! parent_root (message block') = None →
  ∃ depth, ∀ depth' chain, (depth ≤ depth')%nat →
    chain_for_block_rec depth' self x.1 x.2 chain store
    = Raise (KeyError (ParentNotKnown (parent_root (message block')) root')).
Proof.
  intros Hwalk Hout Hnz Hnone.
  remember (block', root') as y eqn:Hy.
  induction Hwalk as [x|x x' y Hstep _ IH].
  - subst x. exists 1%nat. intros depth' chain Hle.
    destruct depth' as [|depth']; [lia|]. simpl.
    rewrite decide_False by done.
    apply N.eqb_neq in Hnz. by rewrite Hnz, Hnone.
  - destruct (IH Hy) as [depth Hdepth]. exists (S depth).
    intros depth' chain Hle. destruct depth' as [|depth']; [lia|].
    destruct Hstep as [block root parent Hk Hs Hp]. simpl in *.
    rewrite decide_False by done.
    apply N.eqb_neq in Hs. rewrite Hs, Hp.
    by rewrite Hdepth by lia.
Qed.

(** C5: when the walk of [chain_for_block] comes to a block that is not
    known to the store and not at slot 0 and whose parent root is no key of
    [blocks], the call raises the missing-ancestor [KeyError], under every
    recursion limit that lets the walk get there; so it does on a block
    whose own parent was never added. *)
Theorem chain_for_block_missing_ancestor (self : BlockCache)
    (block : SignedBeaconBlock) (store : Store) :
  (∀ block' root',
     walk_reaches self store (block, hash_tree_root (message block))
                  (block', root') →
     root' ∉ dom (store_blocks store) →
     slot (message block') ≠ 0 →
     blocks self !! parent_root (message block') = None →
     ∃ depth, ∀ depth', (depth ≤ depth')%nat →
       chain_for_block hash_tree_root depth' self block store
       = Raise (KeyError (ParentNotKnown (parent_root (message block')) root')))
  ∧ (hash_tree_root (message block) ∉ dom (store_blocks store) →
     slot (message block) ≠ 0 →
     blocks self !! parent_root (message block) = None →
     ∀ depth', (1 ≤ depth')%nat →
       chain_for_block hash_tree_root depth' self block store
       = Raise (KeyError (ParentNotKnown (parent_root (message block))
                            (hash_tree_root (message block))))).
Proof.
  split.
  - intros block' root' Hwalk Hout Hnz Hnone.
    destruct (walk_reaches_missing_parent _ _ _ _ _ Hwalk Hout Hnz Hnone)
      as [depth Hdepth].
    exists depth. intros depth' Hle. by apply Hdepth.
  - intros Hout Hnz Hnone depth' Hle.
    destruct depth' as [|depth']; [lia|].
    unfold chain_for_block. simpl. rewrite decide_False by done.
    apply N.eqb_neq in Hnz. by rewrite Hnz, Hnone.
Qed.

(** ** [longest_outstanding_chain] *)

Lemma longest_loop_no_missing_ancestor depth self store roots chain parent root :
  longest_loop hash_tree_root depth self store roots chain
  ≠ Raise (KeyError (ParentNotKnown parent root)).
Proof.
  revert chain. induction roots as [|oblock rest IH]; intros chain; simpl; [done|].
  destruct (blocks self !! oblock) as [outstanding|]; [|done].
  destruct (chain_for_block hash_tree_root depth self outstanding store)
    as [ochain|[]]; try done; apply IH.
Qed.

Lemma ochain_of_Ok depth self outstanding store ochain :
  chain_for_block hash_tree_root depth self outstanding store = Ok ochain →
  ochain_of hash_tree_root depth self outstanding store = ochain.
Proof. unfold ochain_of. by intros ->. Qed.

Lemma ochain_of_Raise depth self outstanding store e :
  chain_for_block hash_tree_root depth self outstanding store = Raise e →
  ochain_of hash_tree_root depth self outstanding store = [].
Proof. unfold ochain_of. by intros ->. Qed.

Lemma longest_loop_Ok depth self store roots chain0 :
  (∀ oblock, oblock ∈ roots →
     ∃ outstanding, blocks self !! oblock = Some outstanding
       ∧ chain_for_block hash_tree_root depth self outstanding store
         ≠ Raise RecursionError) →
  ∃ chain,
    longest_loop hash_tree_root depth self store roots chain0 = Ok chain
    ∧ (length chain0 ≤ length chain)%nat
    ∧ (∀ oblock outstanding, oblock ∈ roots →
         blocks self !! oblock = Some outstanding →
         (length (ochain_of hash_tree_root depth self outstanding store)
          ≤ length chain)%nat)
    ∧ (chain = chain0
       ∨ ∃ oblock outstanding, oblock ∈ roots
           ∧ blocks self !! oblock = Some outstanding
           ∧ chain_for_block hash_tree_root depth self outstanding store
             = Ok chain).
Proof.
  revert chain0. induction roots as [|oblock rest IH]; intros chain0 Hroots.
  - exists chain0. split; [done|]. split; [done|]. split; [|by left].
    intros ? ? Hin. by apply elem_of_nil in Hin.
  - destruct (Hroots oblock (list_elem_of_here _ _)) as (outstanding & Hblock & Hend).
    assert (Hrest : ∀ oblock, oblock ∈ rest →
              ∃ outstanding, blocks self !! oblock = Some outstanding
                ∧ chain_for_block hash_tree_root depth self outstanding store
                  ≠ Raise RecursionError).
    { intros r Hr. apply Hroots. by apply list_elem_of_further. }
    simpl. rewrite Hblock.
    destruct (chain_for_block hash_tree_root depth self outstanding store)
      as [ochain|e] eqn:Hchain.
    + destruct (IH (if (length chain0 <=? length ochain)%nat
                    then ochain else chain0) Hrest)
        as (chain & Hloop & Hlen & Hmax & Hfrom).
      exists chain. split; [done|].
      destruct (Nat.leb_spec (length chain0) (length ochain)) as [Hle|Hgt].
      * split; [lia|]. split.
        -- intros r b [->|Hr]%elem_of_cons Hb; [|by eapply Hmax].
           rewrite Hblock in Hb. injection Hb as <-.
           by rewrite (ochain_of_Ok _ _ _ _ _ Hchain).
        -- destruct Hfrom as [->|(r & b & Hr & Hb & Hrb)].
           ++ right. exists oblock, outstanding.
              split; [apply list_elem_of_here|done].
           ++ right. exists r, b. split; [by apply list_elem_of_further|done].
      * split; [done|]. split.
        -- intros r b [->|Hr]%elem_of_cons Hb; [|by eapply Hmax].
           rewrite Hblock in Hb. injection Hb as <-.
           rewrite (ochain_of_Ok _ _ _ _ _ Hchain). lia.
        -- destruct Hfrom as [->|(r & b & Hr & Hb & Hrb)]; [by left|].
           right. exists r, b. split; [by apply list_elem_of_further|done].
    + destruct (chain_for_block_rec_Raise _ _ _ _ _ _ _ Hchain)
        as [->|(p & r & ->)]; [done|].
      assert (Hsame : (if (length chain0 <=? 0)%nat then [] else chain0) = chain0).
      { destruct chain0; done. }
      rewrite Hsame.
      destruct (IH chain0 Hrest) as (chain & Hloop & Hlen & Hmax & Hfrom).
      exists chain. split; [done|]. split; [done|]. split.
      * intros r' b [->|Hr]%elem_of_cons Hb; [|by eapply Hmax].
        rewrite Hblock in Hb. injection Hb as <-.
        rewrite (ochain_of_Raise _ _ _ _ _ Hchain). simpl. lia.
      * destruct Hfrom as [->|(r' & b & Hr & Hb & Hrb)]; [by left|].
        right. exists r', b. split; [by apply list_elem_of_further|done].
Qed.

End Chain.

(** ** The concrete chain *)

Example chain_for_block_link3 :
  chain_for_block field_hash 1000 chain_cache link3 genesis_store
  = Ok [link1; link2; link3].
Proof. vm_compute. reflexivity. Qed.

Lemma chain_for_block_oldest_to_newest_witness :
  chain_for_block field_hash 1000 chain_cache link3 genesis_store
  = Ok [link1; link2; link3]
  ∧ last [link1; link2; link3] = Some link3.
Proof.
  pose proof (chain_for_block_oldest_to_newest field_hash) as [Hthree Hgeneral].
  assert (Hchain : chain_for_block field_hash 1000 chain_cache link3 genesis_store
                   = Ok [link1; link2; link3]).
  { apply (Hthree genesis0 link1 link2 link3 genesis_store 1000%nat);
      try reflexivity; try (vm_compute; discriminate).
    - vm_compute. repeat constructor; rewrite ?not_elem_of_cons;
        repeat split; try discriminate; apply not_elem_of_nil.
    - vm_compute. lia. }
  split; [exact Hchain|].
  apply (Hgeneral chain_cache link3 genesis_store 1000%nat _ Hchain). discriminate.
Defined.

Lemma chain_for_block_missing_ancestor_witness :
  chain_for_block field_hash 1000 chain_cache orphan genesis_store
  = Raise (KeyError (ParentNotKnown 99 (field_hash (message orphan)))).
Proof.
  apply (chain_for_block_missing_ancestor field_hash chain_cache orphan
           genesis_store).
  - rewrite elem_of_dom. vm_compute. intros [x Hx]. discriminate.
  - vm_compute. discriminate.
  - vm_compute. reflexivity.
  - lia.
Defined.

(** ** The cyclic cache *)

Lemma cyclic_walk depth chain :
  chain_for_block_rec depth cyclic_cache self_parent 77 chain genesis_store
  = Raise RecursionError.
Proof.
  induction depth as [|depth IH]; [done|].
  rewrite chain_for_block_rec_S.
  rewrite decide_False.
  2: { rewrite elem_of_dom. vm_compute. intros [x Hx]. discriminate. }
  change (slot (message self_parent) =? 0) with false. cbv iota.
  change (parent_root (message self_parent)) with 77.
  replace (blocks cyclic_cache !! 77) with (Some self_parent)
    by (vm_compute; reflexivity).
  by rewrite IH.
Qed.

(** C9, as stated, fails: [self_parent] is cached under the root it names
    as its parent, a state [add_block] with an explicit root leads to; the
    walk from it never comes to a root the store knows, to slot 0 or to a
    missing parent, and under every recursion limit the call ends with
    [RecursionError]. *)
Lemma chain_for_block_cycle_not_detected :
  reachable field_hash genesis0 cyclic_cache
  ∧ blocks cyclic_cache !! parent_root (message self_parent) = Some self_parent
  ∧ ¬ (∃ depth,
         chain_for_block field_hash depth cyclic_cache self_parent genesis_store
         ≠ Raise RecursionError).
Proof.
  split; [apply reachable_add_block, reachable_init|].
  split; [vm_compute; reflexivity|].
  intros [depth Hend]. apply Hend. clear Hend.
  unfold chain_for_block. destruct depth as [|depth]; [done|].
  rewrite chain_for_block_rec_S.
  rewrite decide_False.
  2: { rewrite elem_of_dom. vm_compute. intros [x Hx]. discriminate. }
  change (slot (message self_parent) =? 0) with false. cbv iota.
  change (parent_root (message self_parent)) with 77.
  replace (blocks cyclic_cache !! 77) with (Some self_parent)
    by (vm_compute; reflexivity).
  by rewrite cyclic_walk.
Qed.

(** ** A cache with a broken outstanding branch *)

Example longest_outstanding_chain_orphan_cache :
  longest_outstanding_chain field_hash 1000 orphan_cache genesis_store
  = Ok [link1; link2; link3].
Proof. vm_compute. reflexivity. Qed.

(** * Further properties of AttestationCache *)

(** ** [add_attestation] *)

Lemma add_attestation_cache self attestation from_block :
  attestation_cache (add_attestation self attestation from_block)
  = <[data_slot (data attestation) :=
        <[data_index (data attestation) :=
            default [] (default ∅ (attestation_cache self
                                     !! data_slot (data attestation))
                        !! data_index (data attestation)) ++ [attestation]]>
          (default ∅ (attestation_cache self !! data_slot (data attestation)))]>
      (attestation_cache self).
Proof. unfold add_attestation. by destruct from_block. Qed.

Lemma positions_cons a attestations :
  positions (a :: attestations)
  = list_to_set (indices_inside_committee (aggregation_bits a))
    ∪ positions attestations.
Proof.
  unfold positions, keep_indexes. rewrite bind_cons. apply list_to_set_app_L.
Qed.

Lemma foldl_add_indices (seen : gset N) indices :
  foldl (λ s index, {[index]} ∪ s) seen indices = seen ∪ list_to_set indices.
Proof.
  revert seen. induction indices as [|index indices IH]; intros seen; simpl.
  - apply set_eq. intros x. rewrite elem_of_union, elem_of_empty. tauto.
  - rewrite IH. apply set_eq. intros x.
    rewrite !elem_of_union, elem_of_singleton. tauto.
Qed.

(** The list cached for a slot and committee after [add_attestation]. *)
Lemma add_attestation_cached_at (self : AttestationCache)
    (attestation : Attestation) (from_block : bool)
    (slot : Slot) (committee : CommitteeIndex) :
  cached_attestations (add_attestation self attestation from_block)
    slot committee
  = if decide (slot = data_slot (data attestation)
               ∧ committee = data_index (data attestation))
    then cached_attestations self slot committee ++ [attestation]
    else cached_attestations self slot committee.
Proof.
  unfold cached_attestations. rewrite add_attestation_cache.
  destruct (decide (slot = data_slot (data attestation))) as [->|Hslot].
  - rewrite lookup_insert_eq.
    destruct (decide (committee = data_index (data attestation))) as [->|Hc].
    + rewrite lookup_insert_eq, decide_True by done.
      destruct (attestation_cache self !! data_slot (data attestation))
        as [by_committee|]; simpl; [|done].
      by destruct (by_committee !! data_index (data attestation)).
    + rewrite lookup_insert_ne by done. rewrite decide_False by tauto.
      by destruct (attestation_cache self !! data_slot (data attestation)).
  - rewrite lookup_insert_ne by done. rewrite decide_False by tauto. done.
Qed.

(** X1: [add_attestation] appends the attestation to the list cached for
    its own slot and committee index and changes the list of no other slot
    or committee, whatever [from_block] is. *)
Theorem add_attestation_cached (self : AttestationCache)
    (attestation : Attestation) (from_block : bool)
    (slot : Slot) (committee : CommitteeIndex) :
  cached_attestations (add_attestation self attestation from_block)
    slot committee
  = if decide (slot = data_slot (data attestation)
               ∧ committee = data_index (data attestation))
    then cached_attestations self slot committee ++ [attestation]
    else cached_attestations self slot committee.
Proof. apply add_attestation_cached_at. Qed.

(** The seen set of a slot and committee after [add_attestation]. *)
Lemma add_attestation_seen_at self attestation from_block slot committee :
  seen_indices_of (add_attestation self attestation from_block)
    slot committee
  = (if decide (from_block = true
                ∧ slot = data_slot (data attestation)
                ∧ committee = data_index (data attestation))
     then seen_indices_of self slot committee
          ∪ list_to_set (indices_inside_committee
                           (aggregation_bits attestation))
     else seen_indices_of self slot committee).
Proof.
  unfold seen_indices_of, add_attestation.
  destruct from_block; [|by destruct (decide _) as [[? _]|_]].
  cbv zeta. cbn [seen_in_block]. rewrite foldl_add_indices.
  destruct (decide (slot = data_slot (data attestation))) as [->|Hslot].
  - rewrite lookup_insert_eq.
    destruct (decide (committee = data_index (data attestation))) as [->|Hc].
    + rewrite lookup_insert_eq, decide_True by done.
      destruct (seen_in_block self !! data_slot (data attestation))
        as [by_committee|]; simpl; [|done].
      by destruct (by_committee !! data_index (data attestation)).
    + rewrite lookup_insert_ne by done. rewrite decide_False by tauto.
      by destruct (seen_in_block self !! data_slot (data attestation)).
  - rewrite lookup_insert_ne by done. rewrite decide_False by tauto. done.
Qed.

(** X2: [add_attestation] with [from_block] false leaves [seen_in_block]
    as it is; with [from_block] true it adds the positions of the
    attestation to the set of its own slot and committee index and changes
    no other set.  No position is ever taken out. *)
Theorem add_attestation_seen (self : AttestationCache)
    (attestation : Attestation) (from_block : bool)
    (slot : Slot) (committee : CommitteeIndex) :
  (from_block = false →
   seen_in_block (add_attestation self attestation from_block)
   = seen_in_block self)
  ∧ seen_indices_of (add_attestation self attestation from_block)
      slot committee
    = (if decide (from_block = true
                  ∧ slot = data_slot (data attestation)
                  ∧ committee = data_index (data attestation))
       then seen_indices_of self slot committee
            ∪ list_to_set (indices_inside_committee
                             (aggregation_bits attestation))
       else seen_indices_of self slot committee)
  ∧ seen_indices_of self slot committee
    ⊆ seen_indices_of (add_attestation self attestation from_block)
        slot committee.
Proof.
  split; [by intros ->|]. split; [apply add_attestation_seen_at|].
  rewrite add_attestation_seen_at. case_decide; [|done].
  apply union_subseteq_l.
Qed.

Lemma add_attestation_seen_witness :
  seen_in_block (add_attestation three_votes (vote [false; false; true]) false)
  = seen_in_block three_votes.
Proof.
  apply (add_attestation_seen three_votes (vote [false; false; true]) false 1 0).
  reflexivity.
Defined.

(** ** The seen positions of a filled cache *)

Lemma clean_old_slots_cached self slot keep_slots s c :
  cached_attestations (clean_old_slots self slot keep_slots) s c
  = if decide (dropped slot keep_slots s) then []
    else cached_attestations self s c.
Proof.
  unfold cached_attestations. rewrite clean_old_slots_attestation_cache.
  by case_decide.
Qed.

Lemma clean_old_slots_seen self slot keep_slots s c :
  seen_indices_of (clean_old_slots self slot keep_slots) s c
  = if decide (dropped slot keep_slots s) then ∅
    else seen_indices_of self s c.
Proof.
  unfold seen_indices_of. rewrite clean_old_slots_seen_in_block.
  by case_decide.
Qed.

(** X3: in a cache filled by [add_attestation] and trimmed by
    [clean_old_slots], every position recorded in [seen_in_block] for a slot
    and committee is a position of an attestation cached for that slot and
    committee. *)
Theorem seen_in_block_observed (self : AttestationCache)
    (slot : Slot) (committee : CommitteeIndex) :
  filled self →
  seen_indices_of self slot committee
  ⊆ positions (cached_attestations self slot committee).
Proof.
  induction 1 as [|self a from_block _ IH|self s k _ IH].
  - intros p Hp. by apply elem_of_empty in Hp.
  - intros p.
    rewrite add_attestation_seen_at, add_attestation_cached_at.
    destruct (decide (slot = data_slot (data a)
                      ∧ committee = data_index (data a))) as [Hhere|Hther].
    + rewrite !elem_of_positions. intros Hp.
      assert (Hcase : p ∈ seen_indices_of self slot committee
                      ∨ p ∈ indices_inside_committee (aggregation_bits a)).
      { case_decide; [|by left].
        apply elem_of_union in Hp as [?|Hp]; [by left|].
        right. by apply elem_of_list_to_set in Hp. }
      destruct Hcase as [Hp'|Hp'].
      * apply IH, elem_of_positions in Hp' as (b & Hb & Hpb).
        exists b. split; [|done]. apply elem_of_app. by left.
      * exists a. split; [|done]. apply elem_of_app. right.
        apply list_elem_of_here.
    + rewrite decide_False by tauto. apply IH.
  - rewrite clean_old_slots_cached, clean_old_slots_seen.
    case_decide; [|done]. intros p Hp. by apply elem_of_empty in Hp.
Qed.

Lemma seen_in_block_observed_witness :
  seen_indices_of three_votes 1 0 ⊆ positions (cached_attestations three_votes 1 0).
Proof.
  apply (seen_in_block_observed three_votes 1 0).
  repeat apply filled_add_attestation. apply filled_init.
Defined.

(** ** What [attestations_with_unseen_validators] offers *)

Lemma unseen_spec_unseen attestations seen a :
  a ∈ unseen_spec attestations seen →
  a ∈ attestations
  ∧ ∃ p, p ∈ indices_inside_committee (aggregation_bits a) ∧ p ∉ seen.
Proof.
  revert seen. induction attestations as [|b rest IH]; intros seen; simpl.
  - by intros ?%elem_of_nil.
  - destruct (decide (Exists (λ p, p ∉ seen)
                        (indices_inside_committee (aggregation_bits b))))
      as [Hex|Hno].
    + intros [->|Hin]%elem_of_cons.
      * split; [apply list_elem_of_here|].
        apply Exists_exists in Hex as (p & Hp & Hout). eauto.
      * apply IH in Hin as (Hin & p & Hp & Hout).
        split; [by apply list_elem_of_further|].
        exists p. split; [done|]. intros Hseen. apply Hout.
        apply elem_of_union. by left.
    + intros Hin. apply IH in Hin as (Hin & p & Hp & Hout).
      split; [by apply list_elem_of_further|]. eauto.
Qed.

(** X4: an attestation that came in a block is not offered again: right
    after [add_attestation(attestation, from_block=True)] the attestation is
    not among those [attestations_with_unseen_validators] yields for its
    slot and committee. *)
Theorem from_block_attestation_not_offered (self : AttestationCache)
    (attestation : Attestation) :
  attestation
  ∉ attestations_with_unseen_validators
      (add_attestation self attestation true)
      (data_slot (data attestation)) (data_index (data attestation)).
Proof.
  unfold attestations_with_unseen_validators. rewrite unseen_loop_spec.
  intros (_ & p & Hp & Hout)%unseen_spec_unseen. apply Hout.
  rewrite add_attestation_seen_at, decide_True by done.
  apply elem_of_union. right. by apply elem_of_list_to_set.
Qed.

Lemma unseen_spec_sublist attestations seen :
  unseen_spec attestations seen `sublist_of` attestations.
Proof.
  revert seen. induction attestations as [|b rest IH]; intros seen; simpl;
    [done|].
  case_decide; [by apply sublist_skip|by apply sublist_cons].
Qed.

Lemma unseen_spec_positions attestations seen :
  positions (unseen_spec attestations seen) ∪ seen
  = positions attestations ∪ seen.
Proof.
  revert seen. induction attestations as [|b rest IH]; intros seen; simpl;
    [done|].
  destruct (decide (Exists (λ p, p ∉ seen)
                      (indices_inside_committee (aggregation_bits b))))
    as [Hex|Hno].
  - rewrite !positions_cons.
    pose proof (IH (seen ∪ list_to_set
                      (indices_inside_committee (aggregation_bits b)))) as Heq.
    apply set_eq. intros x.
    assert (Hx : x ∈ positions
                       (unseen_spec rest
                          (seen ∪ list_to_set
                             (indices_inside_committee (aggregation_bits b))))
                     ∪ (seen ∪ list_to_set
                          (indices_inside_committee (aggregation_bits b)))
                 ↔ x ∈ positions rest
                       ∪ (seen ∪ list_to_set
                            (indices_inside_committee (aggregation_bits b))))
      by (by rewrite Heq).
    revert Hx. rewrite !elem_of_union. tauto.
  - rewrite positions_cons, IH. apply set_eq. intros x.
    rewrite !elem_of_union, elem_of_list_to_set. split; [tauto|].
    intros [[Hx|?]|?]; [|tauto..].
    right. destruct (decide (x ∈ seen)) as [|Hout]; [done|].
    exfalso. apply Hno, Exists_exists. eauto.
Qed.

(** X5: [attestations_with_unseen_validators] yields cached attestations
    in their cached order, and together with the positions of
    [seen_in_block] the yielded ones cover every position the cached ones
    cover: no unseen position is left out. *)
Theorem attestations_with_unseen_validators_cover (self : AttestationCache)
    (slot : Slot) (committee : CommitteeIndex) :
  attestations_with_unseen_validators self slot committee
    `sublist_of` cached_attestations self slot committee
  ∧ positions (attestations_with_unseen_validators self slot committee)
    ∪ seen_indices_of self slot committee
    = positions (cached_attestations self slot committee)
      ∪ seen_indices_of self slot committee.
Proof.
  unfold attestations_with_unseen_validators. rewrite unseen_loop_spec.
  split; [apply unseen_spec_sublist|apply unseen_spec_positions].
Qed.

Lemma unseen_spec_fresh attestations seen before a after :
  unseen_spec attestations seen = before ++ a :: after →
  ∃ p, p ∈ indices_inside_committee (aggregation_bits a)
       ∧ (p ∉ seen) ∧ (p ∉ positions before).
Proof.
  revert seen before. induction attestations as [|b rest IH];
    intros seen before; simpl.
  - by destruct before.
  - destruct (decide (Exists (λ p, p ∉ seen)
                        (indices_inside_committee (aggregation_bits b))))
      as [Hex|Hno]; [|apply IH].
    destruct before as [|b' before]; simpl.
    + intros [= -> _]. apply Exists_exists in Hex as (p & Hp & Hout).
      exists p. split; [done|]. split; [done|]. apply not_elem_of_empty.
    + intros [= <- Hrest]. apply IH in Hrest as (p & Hp & Hout & Hbefore).
      exists p. split; [done|].
      rewrite not_elem_of_union in Hout. destruct Hout as [Hout Hb].
      split; [done|]. rewrite positions_cons, not_elem_of_union. done.
Qed.

(** X6: every attestation [attestations_with_unseen_validators] yields
    brings something new: it has a position that is neither in
    [seen_in_block] nor in any attestation yielded before it. *)
Theorem attestations_with_unseen_validators_fresh (self : AttestationCache)
    (slot : Slot) (committee : CommitteeIndex)
    (before after : list Attestation) (attestation : Attestation) :
  attestations_with_unseen_validators self slot committee
  = before ++ attestation :: after →
  ∃ p, p ∈ indices_inside_committee (aggregation_bits attestation)
       ∧ (p ∉ seen_indices_of self slot committee)
       ∧ (p ∉ positions before).
Proof.
  unfold attestations_with_unseen_validators. rewrite unseen_loop_spec.
  apply unseen_spec_fresh.
Qed.

Lemma attestations_with_unseen_validators_fresh_witness :
  ∃ p, p ∈ indices_inside_committee (aggregation_bits (vote [true; true; false]))
       ∧ (p ∉ seen_indices_of three_votes 1 0)
       ∧ (p ∉ positions []).
Proof.
  apply (attestations_with_unseen_validators_fresh three_votes 1 0 [] []).
  vm_compute. reflexivity.
Defined.

(** ** [remove_attestation] *)

Lemma list_remove_None x l : list_remove x l = None ↔ x ∉ l.
Proof.
  induction l as [|y l IH]; simpl.
  - split; [intros _; apply not_elem_of_nil|done].
  - rewrite not_elem_of_cons. destruct (decide (y = x)) as [->|Hne].
    + split; [done|]. intros [? _]. done.
    + destruct (list_remove x l) as [l'|].
      * split; [done|]. intros [_ Hout]. by apply IH in Hout.
      * split; [|done]. intros _. split; [done|]. by apply IH.
Qed.

Lemma list_remove_middle x l1 l2 :
  x ∉ l1 → list_remove x (l1 ++ x :: l2) = Some (l1 ++ l2).
Proof.
  induction l1 as [|y l1 IH]; simpl.
  - intros _. by rewrite decide_True.
  - rewrite not_elem_of_cons. intros [Hne Hout].
    rewrite decide_False by congruence. by rewrite IH.
Qed.

Lemma list_remove_Some x l l' :
  list_remove x l = Some l'
  ↔ ∃ l1 l2, l = l1 ++ x :: l2 ∧ (x ∉ l1) ∧ l' = l1 ++ l2.
Proof.
  split.
  - revert l'. induction l as [|y l IH]; intros l'; simpl; [done|].
    destruct (decide (y = x)) as [->|Hne].
    + intros [= <-]. exists [], l. split; [done|].
      split; [apply not_elem_of_nil|done].
    + destruct (list_remove x l) as [l''|]; [|done].
      intros [= <-]. destruct (IH l'' eq_refl) as (l1 & l2 & -> & Hout & ->).
      exists (y :: l1), l2. split; [done|]. split; [|done].
      rewrite not_elem_of_cons. split; [congruence|done].
  - intros (l1 & l2 & -> & Hout & ->). by apply list_remove_middle.
Qed.

Lemma remove_attestation_cached self slot committee attestation s c :
  cached_attestations (remove_attestation self slot committee attestation).1 s c
  = if decide (s = slot ∧ c = committee)
    then default (cached_attestations self slot committee)
           (list_remove attestation (cached_attestations self slot committee))
    else cached_attestations self s c.
Proof.
  unfold remove_attestation, cached_attestations.
  destruct (attestation_cache self !! slot) as [by_committee|] eqn:Hslot; simpl.
  2: { case_decide as H; [|done]. destruct H as [-> ->]. by rewrite Hslot. }
  destruct (by_committee !! committee) as [attestations|] eqn:Hc; simpl.
  2: { case_decide as H; [|done]. destruct H as [-> ->]. by rewrite Hslot, Hc. }
  destruct (list_remove attestation attestations) as [attestations'|]; simpl.
  2: { case_decide as H; [|done]. destruct H as [-> ->]. by rewrite Hslot, Hc. }
  destruct (decide (s = slot)) as [->|Hs].
  - rewrite lookup_insert_eq. destruct (decide (c = committee)) as [->|Hc'].
    + rewrite lookup_insert_eq. by rewrite decide_True.
    + rewrite lookup_insert_ne by done. rewrite decide_False by tauto.
      by rewrite Hslot.
  - rewrite lookup_insert_ne by done. rewrite decide_False by tauto. done.
Qed.

Lemma remove_attestation_Ok self slot committee attestation :
  (remove_attestation self slot committee attestation).2 = Ok ()
  ↔ attestation ∈ cached_attestations self slot committee.
Proof.
  unfold remove_attestation, cached_attestations.
  destruct (attestation_cache self !! slot) as [by_committee|]; simpl.
  2: { split; [done|by intros ?%elem_of_nil]. }
  destruct (by_committee !! committee) as [attestations|]; simpl.
  2: { split; [done|by intros ?%elem_of_nil]. }
  destruct (list_remove attestation attestations) as [l'|] eqn:Hrem; simpl.
  - apply list_remove_Some in Hrem as (l1 & l2 & -> & _ & _).
    split; [|done]. intros _. apply elem_of_app. right.
    apply list_elem_of_here.
  - by apply list_remove_None in Hrem.
Qed.

(** X7: [remove_attestation] returns normally exactly when an equal
    attestation is cached for the slot and committee.  Otherwise it raises
    [KeyError] for an absent slot or committee and [ValueError] for an
    attestation that is not in the list, and leaves the cache as it was. *)
Theorem remove_attestation_raises (self : AttestationCache) (slot : Slot)
    (committee : CommitteeIndex) (attestation : Attestation) :
  ((remove_attestation self slot committee attestation).2 = Ok ()
   ↔ attestation ∈ cached_attestations self slot committee)
  ∧ (attestation ∉ cached_attestations self slot committee →
     (remove_attestation self slot committee attestation).1 = self
     ∧ (remove_attestation self slot committee attestation).2
       = match attestation_cache self !! slot with
         | None => Raise (KeyError (MissingKey slot))
         | Some by_committee =>
             match by_committee !! committee with
             | None => Raise (KeyError (MissingKey committee))
             | Some _ => Raise ValueError
             end
         end).
Proof.
  unfold remove_attestation, cached_attestations.
  destruct (attestation_cache self !! slot) as [by_committee|]; simpl.
  2: { split; [split; [done|by intros ?%elem_of_nil]|done]. }
  destruct (by_committee !! committee) as [attestations|]; simpl.
  2: { split; [split; [done|by intros ?%elem_of_nil]|done]. }
  destruct (list_remove attestation attestations) as [l'|] eqn:Hrem; simpl.
  - apply list_remove_Some in Hrem as (l1 & l2 & -> & _ & _).
    assert (attestation ∈ l1 ++ attestation :: l2) as Hin.
    { apply elem_of_app. right. apply list_elem_of_here. }
    split; [done|]. intros Hout. done.
  - apply list_remove_None in Hrem. split; [|done]. split; [done|]. done.
Qed.

Lemma remove_attestation_raises_witness :
  (remove_attestation three_votes 1 0 (vote [true])).1 = three_votes
  ∧ (remove_attestation three_votes 1 0 (vote [true])).2 = Raise ValueError.
Proof.
  apply (remove_attestation_raises three_votes 1 0 (vote [true])).
  vm_compute. intros Hin.
  repeat (apply elem_of_cons in Hin as [Hin|Hin]; [discriminate|]).
  by apply elem_of_nil in Hin.
Defined.

(** X8: a call of [remove_attestation] that returns takes out the first
    cached attestation equal to the given one and nothing else: the list of
    the slot and committee loses that one element, every other list and
    [seen_in_block] stay as they were. *)
Theorem remove_attestation_first (self : AttestationCache) (slot : Slot)
    (committee : CommitteeIndex) (attestation : Attestation) :
  attestation ∈ cached_attestations self slot committee →
  let self' := (remove_attestation self slot committee attestation).1 in
  (∃ l1 l2,
     cached_attestations self slot committee = l1 ++ attestation :: l2
     ∧ (attestation ∉ l1)
     ∧ cached_attestations self' slot committee = l1 ++ l2)
  ∧ (∀ s c, ¬ (s = slot ∧ c = committee) →
       cached_attestations self' s c = cached_attestations self s c)
  ∧ seen_in_block self' = seen_in_block self.
Proof.
  intros Hin self'. split; [|split].
  - destruct (list_remove attestation (cached_attestations self slot committee))
      as [l'|] eqn:Hrem.
    + pose proof Hrem as (l1 & l2 & Hl & Hout & ->)%list_remove_Some.
      exists l1, l2. split; [done|]. split; [done|].
      subst self'. rewrite remove_attestation_cached, decide_True by done.
      by rewrite Hrem.
    + by apply list_remove_None in Hrem.
  - intros s c Hother. subst self'.
    by rewrite remove_attestation_cached, decide_False.
  - subst self'. unfold remove_attestation. by repeat case_match.
Qed.

Lemma remove_attestation_first_witness :
  cached_attestations
    (remove_attestation three_votes 1 0 (vote [true; true; false])).1 1 3
  = cached_attestations three_votes 1 3.
Proof.
  apply (remove_attestation_first three_votes 1 0 (vote [true; true; false])).
  - vm_compute. apply list_elem_of_further, list_elem_of_here.
  - intros [_ [=]].
Defined.

Lemma list_remove_snoc x l : x ∉ l → list_remove x (l ++ [x]) = Some l.
Proof.
  intros Hout. apply list_remove_Some. exists l, [].
  split; [done|]. split; [done|]. by rewrite app_nil_r.
Qed.

(** X9: adding an attestation that is not yet cached for its slot and
    committee and removing it again gives back every cached list; the
    removal does not raise. *)
Theorem add_then_remove_attestation (self : AttestationCache)
    (attestation : Attestation) (from_block : bool)
    (s : Slot) (c : CommitteeIndex) :
  attestation ∉ cached_attestations self (data_slot (data attestation))
                  (data_index (data attestation)) →
  let removed :=
    remove_attestation (add_attestation self attestation from_block)
      (data_slot (data attestation)) (data_index (data attestation))
      attestation in
  removed.2 = Ok ()
  ∧ cached_attestations removed.1 s c = cached_attestations self s c.
Proof.
  intros Hout removed. split.
  - apply remove_attestation_Ok. rewrite add_attestation_cached_at.
    rewrite decide_True by done. apply elem_of_app. right.
    apply list_elem_of_here.
  - subst removed. rewrite remove_attestation_cached.
    destruct (decide (s = data_slot (data attestation)
                      ∧ c = data_index (data attestation))) as [[-> ->]|Hother].
    + rewrite add_attestation_cached_at, decide_True by done.
      by rewrite list_remove_snoc.
    + by rewrite add_attestation_cached_at, decide_False.
Qed.

Lemma add_then_remove_attestation_witness :
  let removed :=
    remove_attestation (add_attestation three_votes (vote [true]) false)
      1 0 (vote [true]) in
  removed.2 = Ok ()
  ∧ cached_attestations removed.1 1 0 = cached_attestations three_votes 1 0.
Proof.
  apply (add_then_remove_attestation three_votes (vote [true]) false 1 0).
  vm_compute. intros Hin.
  repeat (apply elem_of_cons in Hin as [Hin|Hin]; [discriminate|]).
  by apply elem_of_nil in Hin.
Defined.

(** ** [attestations] and [all_attestations_with_unseen_validators] *)

(** How often [t] occurs in a list. *)
Lemma occurrences_absent {B} `{EqDecision B} (t : B) (l : list B) :
  t ∉ l → filter (λ y, y = t) l = [].
Proof.
  induction l as [|y l IH]; [done|].
  rewrite not_elem_of_cons. intros [Hne Hout].
  rewrite filter_cons, decide_False by congruence. by apply IH.
Qed.

Lemma occurrences_bind_map_to_list {V B} `{EqDecision B}
    (m : gmap N V) (f : N * V → list B) (t : B) (k0 : N) :
  (∀ k v, k ≠ k0 → t ∉ f (k, v)) →
  length (filter (λ y, y = t) (map_to_list m ≫= f))
  = match m !! k0 with
    | Some v => length (filter (λ y, y = t) (f (k0, v)))
    | None => O
    end.
Proof.
  intros Hother. induction m as [|k v m Hfresh IH] using map_ind.
  - by rewrite map_to_list_empty, lookup_empty.
  - rewrite map_to_list_insert by done.
    rewrite bind_cons, filter_app, length_app, IH.
    destruct (decide (k = k0)) as [->|Hne].
    + rewrite lookup_insert_eq, Hfresh. lia.
    + rewrite lookup_insert_ne by done.
      rewrite (occurrences_absent t (f (k, v))) by (by apply Hother). done.
Qed.

Lemma occurrences_fmap_triple (s c : N) (a : Attestation) l :
  length (filter (λ y, y = (s, c, a)) ((λ a', (s, c, a')) <$> l))
  = length (filter (λ a', a' = a) l).
Proof.
  induction l as [|b l IH]; [done|].
  rewrite fmap_cons, !filter_cons.
  destruct (decide (b = a)) as [->|Hne].
  - rewrite decide_True by done. simpl. by rewrite IH.
  - rewrite decide_False by congruence. done.
Qed.

(** X10: [attestations(max_slot)] yields the triple of a slot, a committee
    and an attestation as often as the attestation is cached for that slot
    and committee when the slot is at most [max_slot], and never otherwise:
    every cached attestation up to [max_slot] comes exactly once. *)
Theorem attestations_occurrences (self : AttestationCache) (max_slot : Slot)
    (slot : Slot) (committee : CommitteeIndex) (attestation : Attestation) :
  length (filter (λ y, y = (slot, committee, attestation))
            (attestations self max_slot))
  = if slot <=? max_slot
    then length (filter (λ a, a = attestation)
                   (cached_attestations self slot committee))
    else O.
Proof.
  unfold attestations, cached_attestations.
  rewrite (occurrences_bind_map_to_list _ _ _ slot).
  - destruct (attestation_cache self !! slot) as [by_committee|]; simpl;
      [|by case_match].
    destruct (slot <=? max_slot); [|done].
    rewrite (occurrences_bind_map_to_list _ _ _ committee).
    + destruct (by_committee !! committee) as [l|]; simpl; [|done].
      apply occurrences_fmap_triple.
    + intros k v Hne. simpl. intros (a' & [= ? _] & _)%list_elem_of_fmap. done.
  - intros k v Hne. simpl. destruct (k <=? max_slot); [|apply not_elem_of_nil].
    intros (item & Hin & _)%list_elem_of_bind.
    apply list_elem_of_fmap in Hin as (a' & [= ? _ _] & _). done.
Qed.

(** X11: [all_attestations_with_unseen_validators(max_slot)] yields an
    attestation exactly when [attestations_with_unseen_validators] yields it
    for some slot up to [max_slot] and some committee. *)
Theorem all_attestations_with_unseen_validators_elem (self : AttestationCache)
    (max_slot : Slot) (attestation : Attestation) :
  attestation ∈ all_attestations_with_unseen_validators self max_slot
  ↔ ∃ slot committee,
      slot ≤ max_slot
      ∧ attestation ∈ attestations_with_unseen_validators self slot committee.
Proof.
  unfold all_attestations_with_unseen_validators.
  rewrite list_elem_of_bind. split.
  - intros ([slot by_committee] & Hin & Hitem). simpl in Hin.
    destruct (N.leb_spec slot max_slot) as [Hle|Hgt].
    2: { by apply elem_of_nil in Hin. }
    apply list_elem_of_bind in Hin as (committee & Hin & _). eauto.
  - intros (slot & committee & Hle & Hin).
    assert (Hcached : attestation ∈ cached_attestations self slot committee).
    { unfold attestations_with_unseen_validators in Hin.
      rewrite unseen_loop_spec in Hin.
      by apply unseen_spec_unseen in Hin as [Hin _]. }
    unfold cached_attestations in Hcached.
    destruct (attestation_cache self !! slot) as [by_committee|] eqn:Hslot;
      [|by apply elem_of_nil in Hcached].
    destruct (by_committee !! committee) as [l|] eqn:Hc;
      [|by apply elem_of_nil in Hcached].
    exists (slot, by_committee). split; [|by apply elem_of_map_to_list].
    simpl. apply N.leb_le in Hle. rewrite Hle.
    apply list_elem_of_bind. exists committee. split; [done|].
    apply elem_of_keys. by exists l.
Qed.

(** ** What pruning keeps *)

Lemma keep_loop_from_kept attestations keep :
  ∃ kept,
    foldl keep_step keep attestations = keep ++ kept
    ∧ foldl keep_step keep kept = keep ++ kept
    ∧ kept `sublist_of` attestations
    ∧ ∀ before a after, kept = before ++ a :: after →
        keep_current_attestation (keep ++ before) a = true.
Proof.
  revert keep. induction attestations as [|a rest IH]; intros keep.
  - exists []. rewrite app_nil_r. split; [done|]. split; [done|].
    split; [done|]. intros before b after Hkept. by destruct before.
  - simpl. unfold keep_step at 2.
    destruct (keep_current_attestation keep a) eqn:Hkeep.
    + destruct (IH (keep ++ [a])) as (kept & Hfold & Hfixed & Hsub & Hfresh).
      rewrite <- app_assoc in Hfold, Hfixed. simpl in Hfold, Hfixed.
      exists (a :: kept). split; [done|]. split.
      { simpl. unfold keep_step at 2. by rewrite Hkeep. }
      split; [by apply sublist_skip|].
      intros before b after Hkept. destruct before as [|b' before].
      * injection Hkept as <- _. by rewrite app_nil_r.
      * injection Hkept as <- Hkept. simpl.
        specialize (Hfresh before b after Hkept).
        by rewrite <- app_assoc in Hfresh.
    + destruct (IH keep) as (kept & Hfold & Hfixed & Hsub & Hfresh).
      exists kept. split; [done|]. split; [done|].
      split; [by apply sublist_cons|done].
Qed.

Lemma StronglySorted_sublist {A} (R : relation A) (l1 l2 : list A) :
  l1 `sublist_of` l2 → StronglySorted R l2 → StronglySorted R l1.
Proof.
  induction 1 as [|x l1 l2 Hsub IH|x l1 l2 Hsub IH]; [done|..].
  - intros [Hsorted Hall]%StronglySorted_inv. constructor; [by apply IH|].
    rewrite Forall_forall in *. intros y Hy. apply Hall.
    by eapply elem_of_sublist.
  - intros [Hsorted _]%StronglySorted_inv. by apply IH.
Qed.

Lemma sort_by_popcnt_id attestations :
  StronglySorted
    (λ a b, (popcnt (aggregation_bits b) ≤ popcnt (aggregation_bits a))%nat)
    attestations →
  sort_by_popcnt attestations = attestations.
Proof.
  induction 1 as [|a l Hsorted IH Hall]; [done|].
  simpl. rewrite IH. destruct l as [|b l]; [done|]. simpl.
  apply Forall_cons in Hall as [Hab _].
  destruct (Nat.ltb_spec (popcnt (aggregation_bits a))
                         (popcnt (aggregation_bits b))); [lia|done].
Qed.

Lemma clean_committee_sublist attestations :
  clean_committee attestations `sublist_of` sort_by_popcnt attestations.
Proof.
  unfold clean_committee, keep_loop.
  destruct (keep_loop_from_kept (sort_by_popcnt attestations) [])
    as (kept & -> & _ & Hsub & _). done.
Qed.

Lemma clean_committee_fixed attestations :
  clean_committee (clean_committee attestations) = clean_committee attestations.
Proof.
  pose proof (clean_committee_sublist attestations) as Hsub.
  unfold clean_committee at 1.
  rewrite sort_by_popcnt_id.
  2: { eapply StronglySorted_sublist; [exact Hsub|apply sort_by_popcnt_sorted]. }
  unfold clean_committee, keep_loop.
  destruct (keep_loop_from_kept (sort_by_popcnt attestations) [])
    as (kept & -> & Hfixed & _). done.
Qed.

(** X12: pruning once is enough: [clean_redundant_attestations] applied to
    its own result changes nothing. *)
Theorem clean_redundant_attestations_idempotent (self : AttestationCache) :
  clean_redundant_attestations (clean_redundant_attestations self)
  = clean_redundant_attestations self.
Proof.
  unfold clean_redundant_attestations; simpl. f_equal.
  apply map_eq. intros slot. rewrite !lookup_fmap.
  destruct (attestation_cache self !! slot) as [by_committee|]; simpl; [|done].
  f_equal. apply map_eq. intros committee. rewrite !lookup_fmap.
  destruct (by_committee !! committee) as [l|]; simpl; [|done].
  f_equal. apply clean_committee_fixed.
Qed.

(** X13: the list [clean_redundant_attestations] leaves for a committee is
    in the order of the sort, larger population counts first, and each
    attestation in it has a position other than 0 that no attestation
    before it has; so it holds no attestation without participants. *)
Theorem clean_committee_kept (attestations : list Attestation) :
  clean_committee attestations `sublist_of` sort_by_popcnt attestations
  ∧ StronglySorted
      (λ a b, (popcnt (aggregation_bits b) ≤ popcnt (aggregation_bits a))%nat)
      (clean_committee attestations)
  ∧ ∀ before a after,
      clean_committee attestations = before ++ a :: after →
      ∃ p, p ∈ indices_inside_committee (aggregation_bits a)
           ∧ p ≠ 0 ∧ (p ∉ positions before).
Proof.
  split; [apply clean_committee_sublist|]. split.
  - eapply StronglySorted_sublist;
      [apply clean_committee_sublist|apply sort_by_popcnt_sorted].
  - intros before a after. unfold clean_committee, keep_loop.
    destruct (keep_loop_from_kept (sort_by_popcnt attestations) [])
      as (kept & -> & _ & _ & Hfresh).
    simpl. intros Hkept. specialize (Hfresh before a after Hkept).
    simpl in Hfresh. unfold keep_current_attestation in Hfresh.
    apply existsb_exists in Hfresh as (p & Hp & Htruthy).
    apply list_elem_of_In, list_elem_of_filter in Hp as [Hout Hp].
    exists p. split; [done|]. split.
    + intros ->. discriminate.
    + unfold positions. by rewrite elem_of_list_to_set.
Qed.

Lemma clean_committee_kept_witness :
  ∃ p, p ∈ indices_inside_committee (aggregation_bits (vote [true; true; false]))
       ∧ p ≠ 0 ∧ (p ∉ positions []).
Proof.
  destruct (clean_committee_kept (cached_attestations three_votes 1 0))
    as (_ & _ & Hfresh).
  apply (Hfresh [] (vote [true; true; false]) []).
  vm_compute. reflexivity.
Defined.

(** ** Repeated cleanup *)

Lemma AttestationCache_eq (a b : AttestationCache) :
  attestation_cache a = attestation_cache b →
  seen_in_block a = seen_in_block b →
  a = b.
Proof. destruct a, b; simpl. by intros -> ->. Qed.

Lemma dropped_max slot1 slot2 keep_slots s :
  dropped slot1 keep_slots s ∨ dropped slot2 keep_slots s
  ↔ dropped (N.max slot1 slot2) keep_slots s.
Proof. unfold dropped. lia. Qed.

Lemma cleanup_attestation_cache_lookup self slot keep_slots s :
  attestation_cache (cleanup self slot keep_slots) !! s
  = if decide (dropped slot keep_slots s) then None
    else (λ by_committee : gmap CommitteeIndex (list Attestation),
            clean_committee <$> by_committee) <$> attestation_cache self !! s.
Proof.
  unfold cleanup, clean_redundant_attestations; simpl.
  rewrite lookup_fmap, clean_old_slots_attestation_cache. by case_decide.
Qed.

(** X14: a cleanup at one slot followed by a cleanup at another, with the
    same [keep_slots], leaves the cache a single cleanup at the later of
    the two slots leaves; so repeating a cleanup changes nothing. *)
Theorem cleanup_twice (self : AttestationCache) (slot1 slot2 keep_slots : N) :
  cleanup (cleanup self slot1 keep_slots) slot2 keep_slots
  = cleanup self (N.max slot1 slot2) keep_slots
  ∧ cleanup (cleanup self slot1 keep_slots) slot1 keep_slots
    = cleanup self slot1 keep_slots.
Proof.
  assert (Htwice : ∀ s1 s2,
    cleanup (cleanup self s1 keep_slots) s2 keep_slots
    = cleanup self (N.max s1 s2) keep_slots).
  { intros s1 s2. apply AttestationCache_eq.
    - apply map_eq. intros s. rewrite !cleanup_attestation_cache_lookup.
      pose proof (dropped_max s1 s2 keep_slots s) as Hmax.
      destruct (decide (dropped s2 keep_slots s)) as [H2|H2];
        [by rewrite decide_True by tauto|].
      destruct (decide (dropped s1 keep_slots s)) as [H1|H1];
        [by rewrite decide_True by tauto|].
      rewrite decide_False by tauto.
      destruct (attestation_cache self !! s) as [by_committee|]; simpl; [|done].
      f_equal. apply map_eq. intros c. rewrite !lookup_fmap.
      destruct (by_committee !! c) as [l|]; simpl; [|done].
      f_equal. apply clean_committee_fixed.
    - apply map_eq. intros s. rewrite !cleanup_seen_in_block.
      pose proof (dropped_max s1 s2 keep_slots s) as Hmax.
      destruct (decide (dropped s2 keep_slots s)) as [H2|H2];
        [by rewrite decide_True by tauto|].
      destruct (decide (dropped s1 keep_slots s)) as [H1|H1];
        [by rewrite decide_True by tauto|].
      by rewrite decide_False by tauto. }
  split; [apply Htwice|]. rewrite Htwice. by rewrite N.max_id.
Qed.

(** * Further properties of BlockCache *)

Lemma BlockCache_eq (a b : BlockCache) :
  blocks a = blocks b → accepted a = accepted b →
  outstanding a = outstanding b → a = b.
Proof. destruct a, b; simpl. by intros -> -> ->. Qed.

Lemma pad_accepted_pad accepted slot :
  pad_accepted (pad_accepted accepted slot) slot = pad_accepted accepted slot.
Proof.
  apply pad_accepted_id. apply lookup_lt_is_Some_2, length_pad_accepted.
Qed.

Section BlockCacheMore.

Variable hash_tree_root : BeaconBlock → Root.

(** X15: [add_block] is idempotent: a second call with the same block and
    root leaves the cache the first call left and ends the same way,
    returning or raising the conflict error. *)
Theorem add_block_idempotent (self : BlockCache) (block : SignedBeaconBlock)
    (root : option Root) :
  add_block hash_tree_root
    (add_block hash_tree_root self block root).1 block root
  = add_block hash_tree_root self block root.
Proof.
  rewrite (add_block_cases hash_tree_root self). cbv zeta.
  set (r := default (hash_tree_root (message block)) root).
  destruct (decide (Some r ∈ accepted self)) as [Hin|Hout].
  - rewrite add_block_cases. cbv zeta. fold r. cbn [fst blocks accepted outstanding].
    rewrite decide_True by done. by rewrite insert_insert_eq.
  - destruct (accepted self !! N.to_nat (slot (message block)))
      as [[r'|]|] eqn:Hslot.
    all: rewrite add_block_cases; cbv zeta; fold r;
      cbn [fst blocks accepted outstanding].
    all: rewrite decide_False by (by rewrite elem_of_pad_accepted).
    all: rewrite pad_accepted_lookup, Hslot; cbn [from_option id].
    all: rewrite insert_insert_eq, pad_accepted_pad; try done.
    all: f_equal; apply BlockCache_eq; cbn [blocks accepted outstanding];
      try done.
    all: apply set_eq; intros x; rewrite !elem_of_union; tauto.
Qed.

(** X16: after [add_block] the block is cached under its root whether the
    call returned or raised, and when the call returned the root is
    accepted or outstanding. *)
Theorem add_block_stored (self : BlockCache) (block : SignedBeaconBlock)
    (root : option Root) :
  let r := default (hash_tree_root (message block)) root in
  let done := add_block hash_tree_root self block root in
  blocks done.1 !! r = Some block
  ∧ (done.2 = Ok () →
     Some r ∈ accepted done.1 ∨ r ∈ outstanding done.1).
Proof.
  intros r done. subst done. split.
  - rewrite add_block_blocks. apply lookup_insert_eq.
  - rewrite add_block_cases. cbv zeta. fold r.
    destruct (decide (Some r ∈ accepted self)) as [Hin|Hout]; [by left|].
    destruct (accepted self !! N.to_nat (slot (message block))) as [[r'|]|];
      [done|..]; intros _; right; simpl;
      apply elem_of_union; left; by apply elem_of_singleton.
Qed.

Lemma add_block_not_outstanding self block root :
  accepted_not_outstanding self →
  accepted_not_outstanding (add_block hash_tree_root self block root).1.
Proof.
  intros Hinv r. rewrite add_block_accepted_elem. intros Hr.
  specialize (Hinv r Hr). rewrite add_block_cases. cbv zeta.
  destruct (decide (Some (default (hash_tree_root (message block)) root)
                      ∈ accepted self)) as [Hin|Hout]; [done|].
  destruct (accepted self !! N.to_nat (slot (message block))) as [[r'|]|];
    simpl; [done|..].
  all: rewrite not_elem_of_union, not_elem_of_singleton; split; [|done].
  all: by intros ->.
Qed.

Lemma accept_one_not_outstanding self block :
  accepted_not_outstanding self →
  accepted_not_outstanding (accept_one hash_tree_root self block).1.
Proof.
  intros Hinv r Hr. pose proof (accept_one_accepted_elem _ _ _ _ Hr) as Hcase.
  unfold accept_one in *. case_decide; simpl in *.
  - rewrite elem_of_difference, elem_of_singleton.
    intros [Hout Hne]. destruct Hcase as [?|?]; [by eapply Hinv|done].
  - by apply Hinv.
Qed.

Lemma accept_block_not_outstanding self kargs :
  accepted_not_outstanding self →
  accepted_not_outstanding (accept_block hash_tree_root self kargs).1.
Proof.
  revert self. induction kargs as [|block rest IH]; intros self Hinv; simpl;
    [done|].
  pose proof (accept_one_not_outstanding self block Hinv) as Hone.
  destruct (accept_one hash_tree_root self block) as [self' [[]|e]];
    simpl in *; [by apply IH|done].
Qed.

(** X17: in every state reached from construction by calls of [add_block]
    and [accept_block], no root is both accepted and outstanding. *)
Theorem accepted_outstanding_disjoint (genesis : BeaconBlock)
    (self : BlockCache) :
  reachable hash_tree_root genesis self → accepted_not_outstanding self.
Proof.
  induction 1 as [|self block root _ IH|self kargs _ IH].
  - intros r _. apply not_elem_of_empty.
  - by apply add_block_not_outstanding.
  - by apply accept_block_not_outstanding.
Qed.

(** ** [accept_block] *)

Lemma accept_one_length self block :
  length (accepted (accept_one hash_tree_root self block).1)
  = length (accepted self).
Proof. unfold accept_one. case_decide; simpl; [apply length_insert|done]. Qed.

Lemma accept_block_length self kargs :
  length (accepted (accept_block hash_tree_root self kargs).1)
  = length (accepted self).
Proof.
  revert self. induction kargs as [|block rest IH]; intros self; simpl; [done|].
  pose proof (accept_one_length self block) as Hone.
  destruct (accept_one hash_tree_root self block) as [self' [[]|e]];
    simpl in *; [by rewrite IH|done].
Qed.

(** X18: [accept_block] returns exactly when every given block is at a
    slot for which [accepted] has an entry; it never makes [accepted]
    longer or shorter. *)
Theorem accept_block_in_range (self : BlockCache)
    (kargs : list SignedBeaconBlock) :
  ((accept_block hash_tree_root self kargs).2 = Ok ()
   ↔ Forall (λ block, (N.to_nat (slot (message block))
                       < length (accepted self))%nat) kargs)
  ∧ length (accepted (accept_block hash_tree_root self kargs).1)
    = length (accepted self).
Proof.
  split; [|apply accept_block_length].
  revert self. induction kargs as [|block rest IH]; intros self; simpl.
  - split; [intros _; apply Forall_nil_2|done].
  - rewrite Forall_cons.
    pose proof (accept_one_length self block) as Hlen.
    unfold accept_one in *.
    destruct (decide (N.to_nat (slot (message block)) < length (accepted self))%nat)
      as [Hlt|Hge]; simpl in *.
    + rewrite IH. simpl. rewrite Hlen. tauto.
    + split; [done|]. intros [? _]. done.
Qed.

(** X19: when a block given to [accept_block] is at a slot beyond the end
    of [accepted], the call raises [IndexError] there: the blocks before it
    have been accepted, the blocks after it are not looked at. *)
Theorem accept_block_IndexError (self : BlockCache)
    (before after : list SignedBeaconBlock) (block : SignedBeaconBlock) :
  Forall (λ b, (N.to_nat (slot (message b)) < length (accepted self))%nat)
    before →
  (length (accepted self) ≤ N.to_nat (slot (message block)))%nat →
  accept_block hash_tree_root self (before ++ block :: after)
  = ((accept_block hash_tree_root self before).1, Raise IndexError).
Proof.
  revert self. induction before as [|b before IH]; intros self Hbefore Hge.
  - simpl. unfold accept_one. by rewrite decide_False by lia.
  - apply Forall_cons in Hbefore as [Hb Hbefore]. simpl.
    rewrite accept_one_Ok by done.
    apply IH; simpl; by rewrite length_insert.
Qed.

(** X20: a block that was added and whose root is not accepted yet can be
    accepted: [accept_block] after [add_block] returns, whether or not
    [add_block] raised the conflict error, puts the root into the block's
    slot of [accepted] and takes it out of [outstanding]; adding the block
    once more then changes nothing. *)
Theorem accept_block_after_add_block (self : BlockCache)
    (block : SignedBeaconBlock) :
  let root := hash_tree_root (message block) in
  let added := (add_block hash_tree_root self block None).1 in
  let accepted_block := accept_block hash_tree_root added [block] in
  Some root ∉ accepted self →
  accepted_block.2 = Ok ()
  ∧ accepted accepted_block.1 !! N.to_nat (slot (message block)) = Some (Some root)
  ∧ (root ∉ outstanding accepted_block.1)
  ∧ blocks accepted_block.1 !! root = Some block
  ∧ add_block hash_tree_root accepted_block.1 block None
    = (accepted_block.1, Ok ()).
Proof.
  intros root added accepted_block Hout.
  assert (Hlen : (N.to_nat (slot (message block)) < length (accepted added))%nat).
  { subst added. rewrite add_block_cases. cbv zeta. simpl. fold root.
    rewrite decide_False by done.
    repeat case_match; simpl; apply length_pad_accepted. }
  assert (Hblocks : blocks added !! root = Some block).
  { subst added. rewrite add_block_blocks. apply lookup_insert_eq. }
  subst accepted_block. cbn [accept_block]. rewrite accept_one_Ok by done.
  cbn [fst snd blocks accepted outstanding]. fold root.
  split; [done|]. split; [by apply list_lookup_insert_eq|].
  split; [rewrite elem_of_difference, elem_of_singleton; tauto|].
  split; [done|].
  rewrite add_block_cases. cbv zeta.
  cbn [blocks accepted outstanding from_option id]. fold root.
  rewrite decide_True.
  - f_equal. apply BlockCache_eq; [|done..]. simpl. by apply insert_id.
  - eapply list_elem_of_lookup_2. by apply list_lookup_insert_eq.
Qed.

End BlockCacheMore.

Lemma add_block_stored_witness :
  Some (field_hash (message blockB))
    ∈ accepted (add_block field_hash chain_cache blockB None).1
  ∨ field_hash (message blockB)
    ∈ outstanding (add_block field_hash chain_cache blockB None).1.
Proof.
  apply (add_block_stored field_hash chain_cache blockB None).
  vm_compute. reflexivity.
Defined.

Lemma accept_block_IndexError_witness :
  accept_block field_hash chain_cache ([link1] ++ orphan :: [link2])
  = ((accept_block field_hash chain_cache [link1]).1, Raise IndexError).
Proof.
  apply (accept_block_IndexError field_hash chain_cache [link1] [link2] orphan).
  - apply Forall_cons. split; [vm_compute; lia|apply Forall_nil_2].
  - vm_compute. lia.
Defined.

Lemma accept_block_after_add_block_witness :
  (accept_block field_hash
     (add_block field_hash chain_cache blockA None).1 [blockA]).2 = Ok ().
Proof.
  apply (accept_block_after_add_block field_hash chain_cache blockA).
  vm_compute. intros Hin.
  repeat (apply elem_of_cons in Hin as [Hin|Hin]; [discriminate|]).
  by apply elem_of_nil in Hin.
Defined.

Lemma accepted_outstanding_disjoint_witness :
  accepted_not_outstanding
    (accept_block field_hash
       (add_block field_hash (BlockCache_init field_hash genesis0)
          blockA None).1 [blockA]).1.
Proof.
  apply (accepted_outstanding_disjoint field_hash genesis0).
  apply reachable_accept_block, reachable_add_block, reachable_init.
Defined.

(** ** The chain [longest_outstanding_chain] returns *)

Section LongestChain.

Variable hash_tree_root : BeaconBlock → Root.

Lemma longest_loop_from depth self store roots chain0 chain :
  longest_loop hash_tree_root depth self store roots chain0 = Ok chain →
  chain = chain0
  ∨ ∃ oblock block, oblock ∈ roots
      ∧ blocks self !! oblock = Some block
      ∧ chain_for_block hash_tree_root depth self block store = Ok chain.
Proof.
  revert chain0. induction roots as [|oblock rest IH]; intros chain0; simpl.
  - intros [= <-]. by left.
  - destruct (blocks self !! oblock) as [block|] eqn:Hblock; [|done].
    destruct (chain_for_block hash_tree_root depth self block store)
      as [ochain|e] eqn:Hchain.
    + intros [Heq|(r & b & Hr & Hb & Hrb)]%IH.
      * destruct (length chain0 <=? length ochain)%nat.
        -- right. exists oblock, block. subst chain.
           split; [apply list_elem_of_here|done].
        -- by left.
      * right. exists r, b. split; [by apply list_elem_of_further|done].
    + destruct e as [|arg| |]; try done.
      intros [Heq|(r & b & Hr & Hb & Hrb)]%IH.
      * left. subst chain. by destruct chain0.
      * right. exists r, b. split; [by apply list_elem_of_further|done].
Qed.

(** X21: a chain that [longest_outstanding_chain] returns, when it is not
    empty, is the chain of an outstanding block: it ends with a block that
    is cached under an outstanding root, whose own root the store does not
    know and which is not at slot 0, and none of its blocks is at slot 0. *)
Theorem longest_outstanding_chain_tip (depth : nat) (self : BlockCache)
    (store : Store) (chain : list SignedBeaconBlock) :
  longest_outstanding_chain hash_tree_root depth self store = Ok chain →
  chain ≠ [] →
  ∃ oblock block,
    oblock ∈ outstanding self
    ∧ blocks self !! oblock = Some block
    ∧ last chain = Some block
    ∧ (hash_tree_root (message block) ∉ dom (store_blocks store))
    ∧ ∀ x, x ∈ chain → slot (message x) ≠ 0.
Proof.
  unfold longest_outstanding_chain.
  intros [->|(oblock & block & Hr & Hb & Hchain)]%longest_loop_from Hne;
    [done|].
  apply elem_of_elements in Hr.
  apply chain_for_block_rec_ancestors in Hchain.
  destruct (ancestors_last _ _ _ _ _ Hchain Hne) as [Hlast Hout].
  exists oblock, block. split; [done|]. split; [done|].
  split; [done|]. split; [done|].
  intros x. by eapply ancestors_slot.
Qed.

End LongestChain.

Lemma longest_outstanding_chain_tip_witness :
  ∃ oblock block,
    oblock ∈ outstanding orphan_cache
    ∧ blocks orphan_cache !! oblock = Some block
    ∧ last [link1; link2; link3] = Some block
    ∧ (field_hash (message block) ∉ dom (store_blocks genesis_store))
    ∧ ∀ x, x ∈ [link1; link2; link3] → slot (message x) ≠ 0.
Proof.
  apply (longest_outstanding_chain_tip field_hash 1000 orphan_cache
           genesis_store [link1; link2; link3]).
  - vm_compute. reflexivity.
  - discriminate.
Defined.

(** * Properties of validator.py *)

Lemma elem_of_matching_indices self state i :
  i ∈ matching_indices self state
  ↔ ∃ v, validators state !! i = Some v ∧ validator_pubkey v = pubkey self.
Proof.
  unfold matching_indices. rewrite list_elem_of_fmap. split.
  - intros ([j v] & -> & [Hkey Hin]%list_elem_of_filter). simpl in *.
    apply list_elem_of_lookup in Hin as [k Hk].
    apply list_lookup_imap_Some in Hk as (v' & Hv' & [= -> ->]). eauto.
  - intros (v & Hv & Hkey). exists (i, v). split; [done|].
    apply list_elem_of_filter. split; [done|].
    apply list_elem_of_lookup. exists i.
    apply list_lookup_imap_Some. eauto.
Qed.

Lemma foldl_max_bounds i rest :
  (i ≤ foldl Nat.max i rest)%nat
  ∧ (∀ x, x ∈ rest → (x ≤ foldl Nat.max i rest)%nat)
  ∧ (foldl Nat.max i rest = i ∨ foldl Nat.max i rest ∈ rest).
Proof.
  revert i. induction rest as [|j rest IH]; intros i; simpl.
  - split; [done|]. split; [|by left]. by intros x ?%elem_of_nil.
  - destruct (IH (Nat.max i j)) as (Hle & Hall & Hwhich).
    split; [lia|]. split.
    + intros x [->|Hx]%elem_of_cons; [lia|by apply Hall].
    + destruct Hwhich as [Heq|Hin].
      * rewrite Heq. destruct (Nat.max_spec i j) as [[_ ->]|[_ ->]].
        -- right. apply list_elem_of_here.
        -- by left.
      * right. by apply list_elem_of_further.
Qed.

Lemma max_index_Ok indices m :
  max_index indices = Ok m
  ↔ m ∈ indices ∧ ∀ x, x ∈ indices → (x ≤ m)%nat.
Proof.
  destruct indices as [|i rest]; simpl.
  - split; [done|]. by intros [?%elem_of_nil _].
  - destruct (foldl_max_bounds i rest) as (Hle & Hall & Hwhich). split.
    + intros [= <-]. split.
      * destruct Hwhich as [->|?]; [apply list_elem_of_here|].
        by apply list_elem_of_further.
      * intros x [->|Hx]%elem_of_cons; [done|by apply Hall].
    + intros [Hm Hmax]. f_equal. apply Nat.le_antisymm.
      * apply Hmax. destruct Hwhich as [->|?]; [apply list_elem_of_here|].
        by apply list_elem_of_further.
      * apply elem_of_cons in Hm as [->|Hm]; [done|by apply Hall].
Qed.

(** X22: on a registry of at most 2^64 entries, [index_from_state]
    returns exactly when some entry has the validator's public key, and
    then sets [index] to the position of the last such entry and changes
    no other field; when no entry has the key it raises [ValueError] and
    leaves the validator as it was. *)
Theorem index_from_state_last (self : Validator) (state : BeaconState) :
  N.of_nat (length (validators state)) ≤ 2 ^ 64 →
  let self' := (index_from_state self state).1 in
  ((index_from_state self state).2 = Ok ()
   ↔ ∃ i v, validators state !! i = Some v
            ∧ validator_pubkey v = pubkey self)
  ∧ ((index_from_state self state).2 = Ok () →
     ∃ i v, index self' = Some (N.of_nat i)
            ∧ validators state !! i = Some v
            ∧ validator_pubkey v = pubkey self
            ∧ (∀ j w, (i < j)%nat → validators state !! j = Some w →
                 validator_pubkey w ≠ pubkey self)
            ∧ counter self' = counter self
            ∧ startbalance self' = startbalance self
            ∧ privkey self' = privkey self
            ∧ pubkey self' = pubkey self
            ∧ colorstep self' = colorstep self)
  ∧ ((index_from_state self state).2 ≠ Ok () →
     index_from_state self state = (self, Raise ValueError)).
Proof.
  intros Hlen self'. subst self'. unfold index_from_state.
  destruct (max_index (matching_indices self state)) as [m|e] eqn:Hmax.
  - apply max_index_Ok in Hmax as [Hm Hall].
    pose proof Hm as (v & Hv & Hkey)%elem_of_matching_indices.
    assert (N.of_nat m < 2 ^ 64) as Hfits.
    { apply lookup_lt_Some in Hv. lia. }
    rewrite decide_True by done. simpl.
    split; [split; [eauto|done]|]. split; [|done].
    intros _. exists m, v. repeat split; try done.
    intros j w Hlt Hw Hkeyw.
    assert (j ∈ matching_indices self state) as Hj
      by (apply elem_of_matching_indices; eauto).
    apply Hall in Hj. lia.
  - assert (matching_indices self state = []) as Hnone.
    { destruct (matching_indices self state); [done|discriminate]. }
    assert (e = ValueError) as ->.
    { rewrite Hnone in Hmax. by injection Hmax as <-. }
    simpl. split; [|done]. split; [done|].
    intros (i & v & Hv & Hkey).
    assert (i ∈ matching_indices self state) as Hi
      by (apply elem_of_matching_indices; eauto).
    rewrite Hnone in Hi. by apply elem_of_nil in Hi.
Qed.

Lemma index_from_state_last_witness :
  (index_from_state validator_7 registry_7_twice).2 = Ok ()
  ↔ ∃ i v, validators registry_7_twice !! i = Some v
           ∧ validator_pubkey v = pubkey validator_7.
Proof.
  apply (index_from_state_last validator_7 registry_7_twice).
  vm_compute. discriminate.
Defined.

Example index_from_state_7_twice :
  index (index_from_state validator_7 registry_7_twice).1 = Some 2.
Proof. vm_compute. reflexivity. Qed.

Section ColorFacts.

Variable Color : Type.
Variable COLORS : list Color.


End ColorFacts.


(** * What [longest_outstanding_chain] can raise *)

Section LongestChainErrors.

Variable hash_tree_root : BeaconBlock → Root.

Lemma longest_loop_Raise depth self store roots chain0 e :
  (∀ oblock, oblock ∈ roots → is_Some (blocks self !! oblock)) →
  longest_loop hash_tree_root depth self store roots chain0 = Raise e →
  e = RecursionError.
Proof.
  revert chain0. induction roots as [|oblock rest IH]; intros chain0 Hroots;
    simpl; [done|].
  destruct (Hroots oblock (list_elem_of_here _ _)) as [block ->].
  assert (Hrest : ∀ r, r ∈ rest → is_Some (blocks self !! r)).
  { intros r Hr. apply Hroots. by apply list_elem_of_further. }
  destruct (chain_for_block hash_tree_root depth self block store)
    as [ochain|e'] eqn:Hchain; [by apply IH|].
  destruct (chain_for_block_rec_Raise _ _ _ _ _ _ _ Hchain)
    as [->|(p & r & ->)].
  - by intros [= <-].
  - by apply IH.
Qed.

(** X24: in every state reached from construction by calls of [add_block]
    and [accept_block], [longest_outstanding_chain] raises no [KeyError],
    neither from the subscript [self.blocks[oblock]], every outstanding root
    being a key of [blocks], nor from a missing ancestor: the only
    exception it can end with is [RecursionError]. *)
Theorem longest_outstanding_chain_raises (genesis : BeaconBlock)
    (self : BlockCache) (depth : nat) (store : Store) (e : exn) :
  reachable hash_tree_root genesis self →
  longest_outstanding_chain hash_tree_root depth self store = Raise e →
  e = RecursionError.
Proof.
  intros Hreach. apply longest_loop_Raise.
  intros oblock Hin%elem_of_elements.
  apply elem_of_dom. by eapply outstanding_in_blocks.
Qed.

End LongestChainErrors.

Lemma longest_outstanding_chain_raises_witness :
  longest_outstanding_chain field_hash 5 cyclic_cache genesis_store
  = Raise RecursionError
  ∧ RecursionError = RecursionError.
Proof.
  split; [vm_compute; reflexivity|].
  apply (longest_outstanding_chain_raises field_hash genesis0 cyclic_cache
           5 genesis_store RecursionError).
  - apply reachable_add_block, reachable_init.
  - vm_compute. reflexivity.
Defined.

(** * Concrete instances *)

Lemma all_attestations_with_unseen_validators_elem_witness :
  vote [true; true; false]
  ∈ all_attestations_with_unseen_validators three_votes 5.
Proof.
  apply (all_attestations_with_unseen_validators_elem three_votes 5
           (vote [true; true; false])).
  exists 1, 0. split; [lia|]. vm_compute. apply list_elem_of_here.
Defined.

Lemma accept_block_in_range_witness :
  (accept_block field_hash chain_cache [link1; link3]).2 = Ok ().
Proof.
  apply (accept_block_in_range field_hash chain_cache [link1; link3]).
  repeat (apply Forall_cons; split; [vm_compute; lia|]). apply Forall_nil_2.
Defined.

(** * The order [attestations_with_unseen_validators] scans in *)

Lemma filled_by_snoc calls attestation from_block :
  filled_by (calls ++ [(attestation, from_block)])
  = add_attestation (filled_by calls) attestation from_block.
Proof. unfold filled_by. by rewrite foldl_snoc. Qed.

Lemma positions_app l1 l2 : positions (l1 ++ l2) = positions l1 ∪ positions l2.
Proof.
  unfold positions, keep_indexes. rewrite bind_app. apply list_to_set_app_L.
Qed.

Lemma inserted_snoc calls attestation from_block slot committee :
  inserted (calls ++ [(attestation, from_block)]) slot committee
  = inserted calls slot committee
    ++ (if decide (slot = data_slot (data attestation)
                   ∧ committee = data_index (data attestation))
        then [attestation] else []).
Proof.
  unfold inserted. rewrite fmap_app, filter_app. f_equal. simpl.
  rewrite filter_cons, filter_nil.
  destruct (decide (slot = data_slot (data attestation)
                    ∧ committee = data_index (data attestation)))
    as [[-> ->]|Hother].
  - by rewrite decide_True.
  - rewrite decide_False; [done|]. intros [<- <-]. by apply Hother.
Qed.

(** A cache filled by [add_attestation] alone holds, for every slot and
    committee, the inserted attestations in the order of insertion. *)
Lemma filled_by_cached calls slot committee :
  cached_attestations (filled_by calls) slot committee
  = inserted calls slot committee.
Proof.
  induction calls as [|[attestation from_block] calls IH] using rev_ind;
    [done|].
  rewrite filled_by_snoc, add_attestation_cached_at, inserted_snoc, IH.
  case_decide; [done|by rewrite app_nil_r].
Qed.

Lemma from_block_snoc (calls : list (Attestation * bool)) attestation
    from_block :
  filter (λ call : Attestation * bool, call.2 = true)
         (calls ++ [(attestation, from_block)])
  = filter (λ call : Attestation * bool, call.2 = true) calls
    ++ (if from_block then [(attestation, true)] else []).
Proof.
  rewrite filter_app. f_equal. rewrite filter_cons, filter_nil.
  destruct from_block; by case_decide.
Qed.

Lemma filled_by_seen calls slot committee :
  seen_indices_of (filled_by calls) slot committee
  = inserted_from_block calls slot committee.
Proof.
  induction calls as [|[attestation from_block] calls IH] using rev_ind;
    [done|].
  rewrite filled_by_snoc, add_attestation_seen_at, IH.
  unfold inserted_from_block. rewrite from_block_snoc.
  destruct from_block.
  - rewrite inserted_snoc, positions_app.
    destruct (decide (slot = data_slot (data attestation)
                      ∧ committee = data_index (data attestation)))
      as [Hhere|Hother].
    + rewrite decide_True by tauto. f_equal.
      rewrite positions_cons. apply set_eq. intros x.
      rewrite elem_of_union. unfold positions at 1.
      change (keep_indexes []) with (@nil N). rewrite list_to_set_nil.
      rewrite elem_of_empty. tauto.
    + rewrite decide_False by tauto. apply set_eq. intros x.
      rewrite elem_of_union. unfold positions at 3.
      change (keep_indexes []) with (@nil N). rewrite list_to_set_nil.
      rewrite elem_of_empty. tauto.
  - rewrite decide_False by (by intros [? _]). by rewrite app_nil_r.
Qed.

(** C3, as stated, fails: after the calls of [three_calls] and a
    [cleanup], the cached attestations are [vote_1_2_3] and [vote_1_5],
    inserted the other way round, and [seen_in_block] holds position 5.
    Scanned in insertion order both have an unseen position, but the method
    scans the list as [cleanup] sorted it and yields [vote_1_2_3] only. *)
Lemma unseen_scan_not_in_insertion_order :
  inserted three_calls 1 0 = [vote_5; vote_1_5; vote_1_2_3]
  ∧ cached_attestations resorted_votes 1 0 = [vote_1_2_3; vote_1_5]
  ∧ seen_indices_of resorted_votes 1 0 = {[5]}
  ∧ unseen_spec [vote_1_5; vote_1_2_3] (seen_indices_of resorted_votes 1 0)
    = [vote_1_5; vote_1_2_3]
  ∧ attestations_with_unseen_validators resorted_votes 1 0 = [vote_1_2_3]
  ∧ attestations_with_unseen_validators resorted_votes 1 0
    ≠ unseen_spec [vote_1_5; vote_1_2_3] (seen_indices_of resorted_votes 1 0).
Proof.
  repeat split; try (vm_compute; reflexivity).
  vm_compute. discriminate.
Qed.

(** C3, amended: [attestations_with_unseen_validators] yields the
    attestations the spec's scan selects from the list stored in
    [attestation_cache] for the slot and committee, taken in the order of
    that list, with the seen set started from the set stored in
    [seen_in_block] (empty if absent): those with a position not yet seen,
    all positions of a yielded one being added to the set.  When the slot
    or the committee is absent from the cache the result is empty and
    nothing is raised.  The order of the list is the order of insertion in
    a cache that only [add_attestation] has touched. *)
Theorem attestations_with_unseen_validators_scan :
  (∀ (self : AttestationCache) (slot : Slot) (committee : CommitteeIndex),
     attestations_with_unseen_validators self slot committee
     = unseen_spec
         (default []
            (attestation_cache self !! slot
               ≫= λ by_committee : gmap CommitteeIndex (list Attestation),
                    by_committee !! committee))
         (default ∅
            (seen_in_block self !! slot
               ≫= λ by_committee : gmap CommitteeIndex (gset N),
                    by_committee !! committee)))
  ∧ (∀ (self : AttestationCache) (slot : Slot) (committee : CommitteeIndex),
       attestation_cache self !! slot = None
       ∨ (∃ by_committee, attestation_cache self !! slot = Some by_committee
                          ∧ by_committee !! committee = None) →
       attestations_with_unseen_validators self slot committee = [])
  ∧ (∀ (calls : list (Attestation * bool)) (slot : Slot)
       (committee : CommitteeIndex),
       attestations_with_unseen_validators (filled_by calls) slot committee
       = unseen_spec (inserted calls slot committee)
                     (inserted_from_block calls slot committee)).
Proof.
  split; [|split].
  - intros self slot committee.
    unfold attestations_with_unseen_validators. rewrite unseen_loop_spec.
    f_equal.
    + unfold cached_attestations.
      destruct (attestation_cache self !! slot) as [by_committee|]; simpl;
        [|done].
      by destruct (by_committee !! committee).
    + unfold seen_indices_of.
      destruct (seen_in_block self !! slot) as [by_committee|]; simpl;
        [|done].
      by destruct (by_committee !! committee).
  - intros self slot committee.
    unfold attestations_with_unseen_validators, cached_attestations.
    intros [-> | (by_committee & -> & ->)]; reflexivity.
  - intros calls slot committee.
    unfold attestations_with_unseen_validators.
    by rewrite unseen_loop_spec, filled_by_cached, filled_by_seen.
Qed.

Lemma attestations_with_unseen_validators_scan_witness :
  attestations_with_unseen_validators three_votes 2 0 = []
  ∧ attestations_with_unseen_validators three_votes 1 3 = []
  ∧ attestations_with_unseen_validators (filled_by three_calls) 1 0
    = unseen_spec (inserted three_calls 1 0)
                  (inserted_from_block three_calls 1 0).
Proof.
  destruct attestations_with_unseen_validators_scan
    as (_ & Habsent & Hinserted).
  split; [|split].
  - apply (Habsent three_votes 2 0). left. vm_compute. reflexivity.
  - apply (Habsent three_votes 1 3).
    right. eexists. split; vm_compute; reflexivity.
  - apply (Hinserted three_calls 1 0).
Defined.

(** * Cycles and the end of the walk *)

Lemma walk_step_det self store x y z :
  walk_step self store x y → walk_step self store x z → y = z.
Proof.
  intros Hy Hz. destruct Hy as [block root parent _ _ Hp].
  inversion Hz as [block' root' parent' _ _ Hp']; subst.
  rewrite Hp in Hp'. by injection Hp' as ->.
Qed.

(** One frame of the recursion along a step of the walk. *)
Lemma chain_for_block_rec_step self store x y depth chain :
  walk_step self store x y →
  chain_for_block_rec (S depth) self x.1 x.2 chain store
  = match chain_for_block_rec depth self y.1 y.2 chain store with
    | Ok chain' => Ok (chain' ++ [x.1])
    | Raise e => Raise e
    end.
Proof.
  intros [block root parent Hk Hnz Hp]. simpl.
  rewrite decide_False by done. apply N.eqb_neq in Hnz. by rewrite Hnz, Hp.
Qed.

Lemma ends_at_mono self store depth depth' run block' root' :
  (depth ≤ depth')%nat →
  ends_at self store depth run block' root' →
  ends_at self store depth' run block' root'.
Proof.
  intros Hle [[Hstop [chain Hrun]]|(Hk & Hnz & Hnone & Hrun)].
  - left. split; [done|]. exists chain. intros d Hd. apply Hrun. lia.
  - right. repeat split; try done. intros d Hd. apply Hrun. lia.
Qed.

Lemma ends_at_step self store x y depth chain block' root' :
  walk_step self store x y →
  ends_at self store depth
    (λ d, chain_for_block_rec d self y.1 y.2 chain store) block' root' →
  ends_at self store (S depth)
    (λ d, chain_for_block_rec d self x.1 x.2 chain store) block' root'.
Proof.
  intros Hstep [[Hstop [chain' Hrun]]|(Hk & Hnz & Hnone & Hrun)].
  - left. split; [done|]. exists (chain' ++ [x.1]). intros d Hd.
    destruct d as [|d]; [lia|].
    rewrite (chain_for_block_rec_step _ _ _ _ _ _ Hstep).
    by rewrite Hrun by lia.
  - right. repeat split; try done. intros d Hd.
    destruct d as [|d]; [lia|].
    rewrite (chain_for_block_rec_step _ _ _ _ _ _ Hstep).
    by rewrite Hrun by lia.
Qed.

(** A visited block either lets the walk go on to its cached parent or
    ends it. *)
Lemma walk_step_or_end self store block root chain :
  (∃ parent, blocks self !! parent_root (message block) = Some parent
             ∧ walk_step self store (block, root)
                 (parent, parent_root (message block)))
  ∨ ends_at self store 1
      (λ d, chain_for_block_rec d self block root chain store) block root.
Proof.
  destruct (decide (root ∈ dom (store_blocks store))) as [Hk|Hk].
  { right. left. split; [by left|]. exists chain. intros d Hd.
    destruct d as [|d]; [lia|]. simpl. by rewrite decide_True. }
  destruct (N.eqb_spec (slot (message block)) 0) as [Hz|Hnz].
  { right. left. split; [by right|]. exists chain. intros d Hd.
    destruct d as [|d]; [lia|]. simpl. rewrite decide_False by done.
    by rewrite Hz. }
  destruct (blocks self !! parent_root (message block)) as [parent|] eqn:Hp.
  - left. exists parent. split; [done|]. by constructor.
  - right. right. repeat split; try done. intros d Hd.
    destruct d as [|d]; [lia|]. simpl. rewrite decide_False by done.
    apply N.eqb_neq in Hnz. by rewrite Hnz, Hp.
Qed.

(** From a cached block the walk ends before it has visited more roots
    than [blocks] has keys, unless it comes back to a root. *)
Lemma walk_ends_or_cycles self store start chain n :
  ∀ (visited : gset Root) block root,
    (size (dom (blocks self) ∖ visited) < n)%nat →
    walk_reaches self store start (block, root) →
    blocks self !! root = Some block →
    root ∉ visited →
    (∀ r, r ∈ visited →
       ∃ b, blocks self !! r = Some b
            ∧ tc (walk_step self store) (b, r) (block, root)) →
    walk_cycle self store start
    ∨ ∃ block' root',
        walk_reaches self store (block, root) (block', root')
        ∧ ends_at self store n
            (λ d, chain_for_block_rec d self block root chain store)
            block' root'.
Proof.
  induction n as [|n IH]; intros visited block root Hsize Hreach Hcached
    Hfresh Hvisited; [lia|].
  destruct (walk_step_or_end self store block root chain)
    as [(parent & Hp & Hstep)|Hend].
  2: { right. exists block, root. split; [apply rtc_refl|].
       eapply ends_at_mono; [|exact Hend]. lia. }
  set (proot := parent_root (message block)) in *.
  assert (Hreach' : walk_reaches self store start (parent, proot))
    by (by eapply rtc_r).
  destruct (decide (proot = root)) as [Heq|Hne].
  { left. exists (block, root). split; [done|]. apply tc_once.
    rewrite Heq, Hcached in Hp. injection Hp as <-. by rewrite Heq in Hstep. }
  destruct (decide (proot ∈ visited)) as [Hin|Hout].
  { left. exists (parent, proot). split; [done|].
    destruct (Hvisited proot Hin) as (b & Hb & Htc).
    rewrite Hp in Hb. injection Hb as <-. by eapply tc_r. }
  destruct (IH (visited ∪ {[root]}) parent proot) as [Hcycle|Hends];
    try done.
  - assert (dom (blocks self) ∖ (visited ∪ {[root]})
            ⊂ dom (blocks self) ∖ visited) as Hsub.
    { split.
      - intros r. rewrite !elem_of_difference, elem_of_union. tauto.
      - intros Hall. specialize (Hall root).
        rewrite !elem_of_difference, elem_of_union, elem_of_singleton in Hall.
        rewrite elem_of_dom in Hall. destruct Hall as [_ Hall]; [|tauto].
        split; [by eexists|done]. }
    apply subset_size in Hsub. lia.
  - rewrite not_elem_of_union, not_elem_of_singleton. done.
  - intros r [Hr|Hr]%elem_of_union.
    + destruct (Hvisited r Hr) as (b & Hb & Htc).
      exists b. split; [done|]. by eapply tc_r.
    + apply elem_of_singleton in Hr as ->. exists block.
      split; [done|]. by apply tc_once.
  - by left.
  - right. destruct Hends as (block' & root' & Hwalk & Hend).
    exists block', root'. split; [by eapply rtc_l|].
    by apply (ends_at_step self store (block, root) (parent, proot)).
Qed.

(** On a cycle the recursion never comes back. *)
Lemma tc_walk_step_next self store x y :
  tc (walk_step self store) x x → walk_step self store x y →
  tc (walk_step self store) y y.
Proof.
  intros Htc Hstep.
  assert (rtc (walk_step self store) y x) as Hback.
  { inversion Htc as [? ? Hxx|? z ? Hxz Hzx]; subst.
    - rewrite (walk_step_det _ _ _ _ _ Hstep Hxx). apply rtc_refl.
    - rewrite (walk_step_det _ _ _ _ _ Hstep Hxz). by apply tc_rtc. }
  eapply tc_rtc_l; [exact Hback|]. by apply tc_once.
Qed.

Lemma cycle_RecursionError self store x depth chain :
  tc (walk_step self store) x x →
  chain_for_block_rec depth self x.1 x.2 chain store = Raise RecursionError.
Proof.
  revert x. induction depth as [|depth IH]; intros x Htc; [done|].
  assert (∃ y, walk_step self store x y) as [y Hstep].
  { inversion Htc; subst; eauto. }
  rewrite (chain_for_block_rec_step _ _ _ _ _ _ Hstep).
  rewrite IH; [done|]. by eapply tc_walk_step_next.
Qed.

Lemma walk_cycle_RecursionError self store start depth chain :
  walk_cycle self store start →
  chain_for_block_rec depth self start.1 start.2 chain store
  = Raise RecursionError.
Proof.
  intros (x & Hreach & Htc). revert depth.
  induction Hreach as [x|x y z Hstep _ IH]; intros depth.
  - by apply cycle_RecursionError.
  - destruct depth as [|depth]; [done|].
    rewrite (chain_for_block_rec_step _ _ _ _ _ _ Hstep).
    by rewrite IH.
Qed.

Section Cycles.

Variable hash_tree_root : BeaconBlock → Root.

Lemma chain_for_block_ends self block store :
  walk_cycle self store (block, hash_tree_root (message block))
  ∨ ∃ block' root',
      walk_reaches self store (block, hash_tree_root (message block))
                   (block', root')
      ∧ ends_at self store (size (blocks self) + 2)
          (λ depth, chain_for_block hash_tree_root depth self block store)
          block' root'.
Proof.
  unfold chain_for_block.
  set (root := hash_tree_root (message block)).
  destruct (walk_step_or_end self store block root [])
    as [(parent & Hp & Hstep)|Hend].
  2: { right. exists block, root. split; [apply rtc_refl|].
       eapply ends_at_mono; [|exact Hend]. lia. }
  destruct (walk_ends_or_cycles self store (block, root) []
              (S (size (blocks self))) ∅ parent
              (parent_root (message block)))
    as [Hcycle|(block' & root' & Hwalk & Hend)].
  - rewrite difference_empty_L, size_dom. lia.
  - by apply rtc_once.
  - done.
  - apply not_elem_of_empty.
  - intros r Hr. by apply elem_of_empty in Hr.
  - by left.
  - right. exists block', root'. split; [by eapply rtc_l|].
    replace (size (blocks self) + 2)%nat with (S (S (size (blocks self))))
      by lia.
    by apply (ends_at_step self store (block, root)
                (parent, parent_root (message block))).
Qed.

(** C9, amended: [__chain_for_block] detects no cycle.  When the walk from
    the block never comes back to a block and root it has visited, it
    comes to a block where it stops or fails: one visited under a root the
    store knows or at slot 0, where the call returns, or one whose parent
    root is no key of [blocks], where it raises the missing-ancestor
    error; a recursion limit of two frames more than [blocks] has keys is
    enough.  When the walk does come back to a block and root it has
    visited, the call ends with [RecursionError] under every recursion
    limit. *)
Theorem chain_for_block_ends_unless_cycle (self : BlockCache)
    (block : SignedBeaconBlock) (store : Store) :
  (¬ walk_cycle self store (block, hash_tree_root (message block)) →
   ∃ block' root',
     walk_reaches self store (block, hash_tree_root (message block))
                  (block', root')
     ∧ ends_at self store (size (blocks self) + 2)
         (λ depth, chain_for_block hash_tree_root depth self block store)
         block' root')
  ∧ (walk_cycle self store (block, hash_tree_root (message block)) →
     ∀ depth,
       chain_for_block hash_tree_root depth self block store
       = Raise RecursionError).
Proof.
  split.
  - intros Hno. by destruct (chain_for_block_ends self block store).
  - intros Hcycle depth. unfold chain_for_block.
    by apply (walk_cycle_RecursionError self store
                (block, hash_tree_root (message block))).
Qed.

End Cycles.

Lemma chain_for_block_ends_unless_cycle_witness :
  (∃ block' root',
     walk_reaches mixed_cache genesis_store
       (link3, field_hash (message link3)) (block', root')
     ∧ ends_at mixed_cache genesis_store (size (blocks mixed_cache) + 2)
         (λ depth, chain_for_block field_hash depth mixed_cache link3
                     genesis_store)
         block' root')
  ∧ ∀ depth,
      chain_for_block field_hash depth mixed_cache self_parent genesis_store
      = Raise RecursionError.
Proof.
  split.
  - apply (chain_for_block_ends_unless_cycle field_hash mixed_cache link3
             genesis_store).
    intros Hcycle.
    pose proof (walk_cycle_RecursionError mixed_cache genesis_store
                  (link3, field_hash (message link3)) 4 [] Hcycle) as Hrun.
    vm_compute in Hrun. discriminate.
  - apply (chain_for_block_ends_unless_cycle field_hash mixed_cache
             self_parent genesis_store).
    assert (Hstep : ∀ root,
      root ∉ dom (store_blocks genesis_store) →
      walk_step mixed_cache genesis_store (self_parent, root)
        (self_parent, 77)).
    { intros root Hroot.
      apply (walk_step_parent mixed_cache genesis_store self_parent root
               self_parent); [done|vm_compute; discriminate|].
      vm_compute. reflexivity. }
    exists (self_parent, 77). split.
    + apply rtc_once, Hstep. rewrite elem_of_dom. vm_compute.
      intros [x Hx]. discriminate.
    + apply tc_once, Hstep. rewrite elem_of_dom. vm_compute.
      intros [x Hx]. discriminate.
Defined.

(** * [longest_outstanding_chain] and cycles *)

Lemma ends_at_stable self store n run block' root' :
  ends_at self store n run block' root' →
  ∀ depth, (n ≤ depth)%nat →
    run depth = run n ∧ run depth ≠ Raise RecursionError.
Proof.
  intros [[_ [chain Hrun]]|(_ & _ & _ & Hrun)] depth Hle.
  - rewrite (Hrun depth Hle), (Hrun n (le_n n)). done.
  - rewrite (Hrun depth Hle), (Hrun n (le_n n)). done.
Qed.

Section LongestChainCycles.

Variable hash_tree_root : BeaconBlock → Root.

(** Without a cycle the chain of a block is the same under every
    sufficient recursion limit. *)
Lemma chain_for_block_stable self block store depth :
  ¬ walk_cycle self store (block, hash_tree_root (message block)) →
  (size (blocks self) + 2 ≤ depth)%nat →
  chain_for_block hash_tree_root depth self block store
  = chain_for_block hash_tree_root (size (blocks self) + 2) self block store
  ∧ chain_for_block hash_tree_root depth self block store
    ≠ Raise RecursionError.
Proof.
  intros Hno Hle.
  destruct (chain_for_block_ends hash_tree_root self block store)
    as [?|(block' & root' & _ & Hend)]; [done|].
  by apply (ends_at_stable _ _ _ _ _ _ Hend).
Qed.

Lemma longest_loop_same depth depth' self store roots chain0 :
  (∀ oblock block, oblock ∈ roots → blocks self !! oblock = Some block →
     chain_for_block hash_tree_root depth self block store
     = chain_for_block hash_tree_root depth' self block store) →
  longest_loop hash_tree_root depth self store roots chain0
  = longest_loop hash_tree_root depth' self store roots chain0.
Proof.
  revert chain0. induction roots as [|oblock rest IH]; intros chain0 Hsame;
    simpl; [done|].
  destruct (blocks self !! oblock) as [block|] eqn:Hblock; [|done].
  rewrite (Hsame oblock block (list_elem_of_here _ _) Hblock).
  assert (Hrest : ∀ r b, r ∈ rest → blocks self !! r = Some b →
            chain_for_block hash_tree_root depth self b store
            = chain_for_block hash_tree_root depth' self b store).
  { intros r b Hr. apply Hsame. by apply list_elem_of_further. }
  destruct (chain_for_block hash_tree_root depth' self block store)
    as [ochain|[]]; try done; by apply IH.
Qed.

Lemma longest_loop_RecursionError depth self store roots chain0 :
  (∀ oblock, oblock ∈ roots → is_Some (blocks self !! oblock)) →
  (∃ oblock block, oblock ∈ roots ∧ blocks self !! oblock = Some block
     ∧ chain_for_block hash_tree_root depth self block store
       = Raise RecursionError) →
  longest_loop hash_tree_root depth self store roots chain0
  = Raise RecursionError.
Proof.
  intros Hroots Hcycle.
  destruct (longest_loop hash_tree_root depth self store roots chain0)
    as [chain|e] eqn:Hloop.
  - exfalso. revert chain0 Hloop.
    induction roots as [|oblock rest IH]; intros chain0; simpl.
    + destruct Hcycle as (r & b & Hr & _). by apply elem_of_nil in Hr.
    + destruct (blocks self !! oblock) as [block|] eqn:Hblock; [|done].
      assert (Hrest : chain_for_block hash_tree_root depth self block store
                      ≠ Raise RecursionError →
                ∃ r b, r ∈ rest ∧ blocks self !! r = Some b
                  ∧ chain_for_block hash_tree_root depth self b store
                    = Raise RecursionError).
      { intros Hne. destruct Hcycle as (r & b & Hr & Hb & Hrb).
        apply elem_of_cons in Hr as [->|Hr]; [|eauto].
        rewrite Hblock in Hb. injection Hb as <-. done. }
      assert (Hsome : ∀ r, r ∈ rest → is_Some (blocks self !! r)).
      { intros r Hr. apply Hroots. by apply list_elem_of_further. }
      destruct (chain_for_block hash_tree_root depth self block store)
        as [ochain|[]]; try done; by apply IH; [|apply Hrest].
  - f_equal. by eapply longest_loop_Raise.
Qed.

(** C6, amended: [longest_outstanding_chain] never ends with the
    missing-ancestor error of [chain_for_block].  In a cache whose
    outstanding roots are keys of [blocks], as they are in every reachable
    state: when no walk from an outstanding block comes back to a block
    and root it has visited, the call returns, under every recursion limit
    of two frames more than [blocks] has keys, a chain that is at least as
    long as the chain of every outstanding root, a failed chain counting
    as empty, and that is empty or the chain of an outstanding root; it is
    empty when [outstanding] is empty and when every chain fails.  When
    the walk from some outstanding block does come back, the call returns
    no chain: it ends with [RecursionError] under every recursion limit. *)
Theorem longest_outstanding_chain_unless_cycle (self : BlockCache)
    (store : Store) :
  (∀ depth parent root,
     longest_outstanding_chain hash_tree_root depth self store
     ≠ Raise (KeyError (ParentNotKnown parent root)))
  ∧ (outstanding self ⊆ dom (blocks self) →
     ((∀ oblock block, oblock ∈ outstanding self →
         blocks self !! oblock = Some block →
         ¬ walk_cycle self store (block, hash_tree_root (message block))) →
      ∃ chain,
        (∀ depth, (size (blocks self) + 2 ≤ depth)%nat →
           longest_outstanding_chain hash_tree_root depth self store
           = Ok chain)
        ∧ (∀ depth oblock block, (size (blocks self) + 2 ≤ depth)%nat →
             oblock ∈ outstanding self →
             blocks self !! oblock = Some block →
             (length (ochain_of hash_tree_root depth self block store)
              ≤ length chain)%nat)
        ∧ (chain = []
           ∨ ∃ oblock block, oblock ∈ outstanding self
               ∧ blocks self !! oblock = Some block
               ∧ ∀ depth, (size (blocks self) + 2 ≤ depth)%nat →
                   chain_for_block hash_tree_root depth self block store
                   = Ok chain)
        ∧ (outstanding self = ∅ → chain = [])
        ∧ ((∀ oblock block, oblock ∈ outstanding self →
              blocks self !! oblock = Some block →
              ∃ depth e, (size (blocks self) + 2 ≤ depth)%nat
                ∧ chain_for_block hash_tree_root depth self block store
                  = Raise e) →
           chain = []))
     ∧ ((∃ oblock block, oblock ∈ outstanding self
           ∧ blocks self !! oblock = Some block
           ∧ walk_cycle self store (block, hash_tree_root (message block))) →
        ∀ depth,
          longest_outstanding_chain hash_tree_root depth self store
          = Raise RecursionError)).
Proof.
  split.
  { intros depth parent root. apply longest_loop_no_missing_ancestor. }
  intros Hcached.
  assert (Hsome : ∀ oblock, oblock ∈ elements (outstanding self) →
            is_Some (blocks self !! oblock)).
  { intros oblock Hin%elem_of_elements. by apply elem_of_dom, Hcached. }
  split.
  - intros Hno. set (bound := (size (blocks self) + 2)%nat).
    assert (Hstable : ∀ depth oblock block, (bound ≤ depth)%nat →
              oblock ∈ outstanding self → blocks self !! oblock = Some block →
              chain_for_block hash_tree_root depth self block store
              = chain_for_block hash_tree_root bound self block store
              ∧ chain_for_block hash_tree_root depth self block store
                ≠ Raise RecursionError).
    { intros depth oblock block Hle Hin Hblock.
      apply chain_for_block_stable; [by eapply Hno|done]. }
    destruct (longest_loop_Ok hash_tree_root bound self store
                (elements (outstanding self)) [])
      as (chain & Hloop & _ & Hmax & Hfrom).
    { intros oblock Hin. destruct (Hsome oblock Hin) as [block Hblock].
      exists block. split; [done|]. apply elem_of_elements in Hin.
      by apply (Hstable bound oblock block). }
    assert (Hfrom' : chain = []
              ∨ ∃ oblock block, oblock ∈ outstanding self
                  ∧ blocks self !! oblock = Some block
                  ∧ ∀ depth, (bound ≤ depth)%nat →
                      chain_for_block hash_tree_root depth self block store
                      = Ok chain).
    { destruct Hfrom as [?|(r & b & Hr%elem_of_elements & Hb & Hrb)];
        [by left|].
      right. exists r, b. split; [done|]. split; [done|].
      intros depth Hle. by destruct (Hstable depth r b Hle Hr Hb) as [-> _]. }
    exists chain. split; [|split; [|split; [done|split]]].
    + intros depth Hle. unfold longest_outstanding_chain.
      rewrite <- Hloop. apply longest_loop_same.
      intros r b Hr%elem_of_elements Hb.
      by destruct (Hstable depth r b Hle Hr Hb).
    + intros depth r b Hle Hr Hb. unfold ochain_of.
      destruct (Hstable depth r b Hle Hr Hb) as [-> _].
      apply elem_of_elements in Hr. by apply (Hmax r b).
    + intros Hempty. destruct Hfrom' as [?|(r & b & Hr & _)]; [done|].
      rewrite Hempty in Hr. by apply elem_of_empty in Hr.
    + intros Hfail. destruct Hfrom' as [?|(r & b & Hr & Hb & Hrb)]; [done|].
      destruct (Hfail r b Hr Hb) as (depth & e & Hle & He).
      by rewrite (Hrb depth Hle) in He.
  - intros (oblock & block & Hin & Hblock & Hcycle) depth.
    apply longest_loop_RecursionError; [done|].
    exists oblock, block. split; [by apply elem_of_elements|].
    split; [done|]. unfold chain_for_block.
    by apply (walk_cycle_RecursionError self store
                (block, hash_tree_root (message block))).
Qed.

End LongestChainCycles.

Lemma mixed_cache_cycle :
  walk_cycle mixed_cache genesis_store
    (self_parent, field_hash (message self_parent)).
Proof.
  assert (Hstep : ∀ root,
    root ∉ dom (store_blocks genesis_store) →
    walk_step mixed_cache genesis_store (self_parent, root)
      (self_parent, 77)).
  { intros root Hroot.
    apply (walk_step_parent mixed_cache genesis_store self_parent root
             self_parent); [done|vm_compute; discriminate|].
    vm_compute. reflexivity. }
  exists (self_parent, 77). split.
  - apply rtc_once, Hstep. rewrite elem_of_dom. vm_compute.
    intros [x Hx]. discriminate.
  - apply tc_once, Hstep. rewrite elem_of_dom. vm_compute.
    intros [x Hx]. discriminate.
Qed.

Lemma mixed_cache_reachable : reachable field_hash genesis0 mixed_cache.
Proof. repeat apply reachable_add_block. apply reachable_init. Qed.

(** C6, as stated, fails: [mixed_cache] is reached by four calls of
    [add_block]; [link3] is outstanding in it and its chain is [link1],
    [link2], [link3]; but [self_parent] is outstanding too and the walk
    from it runs in a cycle, so that [longest_outstanding_chain] returns
    no chain under any recursion limit. *)
Lemma longest_outstanding_chain_cycle_returns_nothing :
  reachable field_hash genesis0 mixed_cache
  ∧ field_hash (message link3) ∈ outstanding mixed_cache
  ∧ blocks mixed_cache !! field_hash (message link3) = Some link3
  ∧ chain_for_block field_hash 4 mixed_cache link3 genesis_store
    = Ok [link1; link2; link3]
  ∧ ¬ (∃ depth chain,
         longest_outstanding_chain field_hash depth mixed_cache genesis_store
         = Ok chain).
Proof.
  split; [apply mixed_cache_reachable|].
  split; [apply elem_of_elements; vm_compute;
          repeat first [apply list_elem_of_here | apply list_elem_of_further]|].
  split; [vm_compute; reflexivity|]. split; [vm_compute; reflexivity|].
  intros (depth & chain & Hchain).
  unfold longest_outstanding_chain in Hchain.
  rewrite (longest_loop_RecursionError field_hash) in Hchain; [done|..].
  - intros oblock Hin%elem_of_elements.
    apply elem_of_dom.
    by apply (outstanding_in_blocks field_hash genesis0 mixed_cache
                mixed_cache_reachable).
  - exists 77, self_parent. split.
    { apply elem_of_elements, elem_of_union. left. by apply elem_of_singleton. }
    split; [vm_compute; reflexivity|].
    apply (walk_cycle_RecursionError mixed_cache genesis_store
             (self_parent, field_hash (message self_parent))).
    apply mixed_cache_cycle.
Qed.

Lemma longest_outstanding_chain_unless_cycle_witness :
  (∃ chain,
     longest_outstanding_chain field_hash (size (blocks orphan_cache) + 2)
       orphan_cache genesis_store = Ok chain
     ∧ (length (ochain_of field_hash (size (blocks orphan_cache) + 2)
                  orphan_cache link2 genesis_store)
        ≤ length chain)%nat)
  ∧ ∀ depth,
      longest_outstanding_chain field_hash depth mixed_cache genesis_store
      = Raise RecursionError.
Proof.
  split.
  - destruct (longest_outstanding_chain_unless_cycle field_hash orphan_cache
                genesis_store) as [_ Hcached].
    destruct Hcached as [Hreturns _].
    { apply (outstanding_in_blocks field_hash genesis0).
      repeat apply reachable_add_block. apply reachable_init. }
    destruct Hreturns as (chain & Hchain & Hmax & _).
    + intros oblock block Hin%elem_of_elements Hblock Hcycle.
      pose proof (walk_cycle_RecursionError orphan_cache genesis_store
                    (block, field_hash (message block)) 10 [] Hcycle) as Hrun.
      vm_compute in Hin.
      repeat (apply elem_of_cons in Hin as [->|Hin]);
        [..|by apply elem_of_nil in Hin].
      all: vm_compute in Hblock; injection Hblock as <-.
      all: vm_compute in Hrun; discriminate.
    + exists chain. split; [by apply Hchain|].
      apply (Hmax _ (field_hash (message link2))); [done| |].
      * apply elem_of_elements. vm_compute.
        repeat first [apply list_elem_of_here | apply list_elem_of_further].
      * vm_compute. reflexivity.
  - destruct (longest_outstanding_chain_unless_cycle field_hash mixed_cache
                genesis_store) as [_ Hcached].
    destruct Hcached as [_ Hcycle].
    { apply (outstanding_in_blocks field_hash genesis0).
      apply mixed_cache_reachable. }
    apply Hcycle. exists 77, self_parent. split.
    { apply elem_of_union. left. by apply elem_of_singleton. }
    split; [vm_compute; reflexivity|apply mixed_cache_cycle].
Defined.
